(** * Mirage: the adversarial detection simulation

    A shallow embedding of the simulation core of the repository:

    - [src/utils/prng.ts]: the seedable generator [PRNG];
    - the detection logic ([getDistance], [generateSensorEvent],
      [runDetectionLogic]), found after the component in
      [src/features/whisper_network/WhisperNetwork.tsx];
    - the tick loop of [runSimulationPromise] and the actor creation of
      [handleStartScenario] in
      [src/features/adversarial_simulator/AdversarialSimulator.tsx];
    - the path validation of [generateAdversarialScenario] in
      [src/services/geminiService.ts] and the table [POINTS_OF_INTEREST]
      of [src/features/adversarial_simulator/mapData.ts].

    Numbers.  A JavaScript number is an IEEE 754 double, so probabilities,
    coordinates and distances are primitive [float]s with the kernel's
    binary64 operations.  Quantities that the program only ever holds as
    integers (timestamps of [Date.now()], list lengths, path indices, the
    generator's seed, and the rule parameters the data model types as
    integers) are [Z]: doubles represent integers exactly below 2^53.

    Effects.  The generator object and the wall clock are the two pieces of
    state the detection code reads and writes; they are threaded explicitly
    in a [World] through a small state monad. *)

From Stdlib Require Import ZArith Floats Lia.
From stdpp Require Import gmap strings list pretty.

Open Scope Z_scope.
Set Warnings "-inexact-float".

(** ** JavaScript numbers *)

Definition is_nan (x : float) : bool := negb (x =? x)%float.

(** Truthiness of a number: [0], [-0] and [NaN] are falsy. *)
Definition truthy (x : float) : bool := negb (x =? 0)%float && negb (is_nan x).

(** [Math.sin], [Math.cos] and [Math.atan2] are implementation-approximated
    in ECMAScript; the embedding takes them as an interface. *)
Class MathLib := {
  Math_sin : float -> float;
  Math_cos : float -> float;
  Math_atan2 : float -> float -> float
}.

Definition Math_PI : float := 3.141592653589793%float.

(** ** [src/utils/prng.ts] *)

Module PRNG.

Definition ToInt32 (x : Z) : Z := (x + 2 ^ 31) mod 2 ^ 32 - 2 ^ 31.
Definition ToUint32 (x : Z) : Z := x mod 2 ^ 32.

(** [Math.imul a b] *)
Definition imul (a b : Z) : Z := ToInt32 (ToInt32 a * ToInt32 b).
(** [a ^ b], [a | b], [a >>> n] *)
Definition xor (a b : Z) : Z := Z.lxor (ToInt32 a) (ToInt32 b).
Definition or (a b : Z) : Z := Z.lor (ToInt32 a) (ToInt32 b).
Definition ushr (a n : Z) : Z := Z.shiftr (ToUint32 a) n.

Record t := mk { seed : Z }.

(** The 32-bit numerator of [next()]; the seed is advanced without
    wrap-around, as [this.seed += 0x6D2B79F5] does. *)
Definition next_u32 (g : t) : Z * t :=
  let s := seed g + 0x6D2B79F5 in
  let t0 := s in
  let t1 := imul (xor t0 (ushr t0 15)) (or t0 1) in
  let t2 := xor t1 (t1 + imul (xor t1 (ushr t1 7)) (or t1 61)) in
  (ushr (xor t2 (ushr t2 14)) 0, mk s).

Definition u32_to_float (u : Z) : float :=
  (PrimFloat.of_uint63 (Uint63.of_Z u) / 4294967296)%float.

Definition next (g : t) : float * t :=
  let '(u, g') := next_u32 g in (u32_to_float u, g').

(** Alias for [next()]. *)
Definition random (g : t) : float * t := next g.

End PRNG.

(** ** The world: generator and clock *)

(** [clock n] is what the [n]-th call of [Date.now()] returns; [reads]
    counts the calls made so far. *)
Record World := mkWorld { prng : PRNG.t; clock : nat -> Z; reads : nat }.

Definition M (A : Type) : Type := World -> A * World.

#[export] Instance M_ret : MRet M := fun A (a : A) w => (a, w).
#[export] Instance M_bind : MBind M :=
  fun A B (k : A -> M B) (c : M A) w => let '(a, w') := c w in k a w'.

Definition prng_random : M float :=
  fun w => let '(r, g) := PRNG.random (prng w) in (r, mkWorld g (clock w) (reads w)).

Definition prng_u32 : M Z :=
  fun w => let '(u, g) := PRNG.next_u32 (prng w) in (u, mkWorld g (clock w) (reads w)).

Definition Date_now : M Z :=
  fun w => (clock w (reads w), mkWorld (prng w) (clock w) (S (reads w))).

(** ** [src/features/adversarial_simulator/types.ts] *)

Definition Point : Type := float * float.

Inductive Weather := clear | fog.
Inductive ActorType := adversary | civilian.
Inductive SensorType := camera | acoustic.
Inductive GpsMode := gps_on | gps_off.
Inductive Level := info | warning | critical.

Module Sensor.
Record t := mk {
  id : string;
  type : SensorType;
  pos : Point;
  range : float;
  base_p : float;
  weather_penalty : Weather -> option float
}.
End Sensor.

Module Actor.
Record t := mk {
  id : string;
  type : ActorType;
  pos : Point;
  path : list Point;
  pathIndex : nat;
  speed : float;
  gpsMode : GpsMode
}.
End Actor.

Module SensorEvent.
Record t := mk {
  timestamp : Z;
  sensorId : string;
  actorId : string;
  confidence : float;
  actorPos : Point
}.
End SensorEvent.

Module Alert.
Record t := mk {
  id : string;
  timestamp : Z;
  message : string;
  level : Level;
  relatedEvents : list SensorEvent.t
}.
End Alert.

(** The keys of [params] that the rule engine reads.  [time_window_s],
    [min_detections] and [min_actors] are integers in the data model. *)
Module Params.
Record t := mk {
  min_confidence : float;
  time_window_s : Z;
  min_detections : Z;
  radius_m : float;
  min_actors : Z
}.
End Params.

(** [type] is the string the engine switches on: rules are data and may
    carry a type the engine does not know. *)
Module DetectionRule.
Record t := mk { id : string; type : string; params : Params.t }.
End DetectionRule.

(** A value read from the rolling state: a list of events, a number (the
    cooldown timestamp), or an object of the kind every object inherits
    from [Object.prototype]: a function or a plain object, truthy, with no
    [filter] or [concat] method, and NaN when compared as a number. *)
Inductive StateVal :=
| VEvents (l : list SensorEvent.t)
| VNum (n : Z)
| VObject.

(** The own properties of the state object. *)
Abbreviation DetectionState := (gmap string StateVal).

(** The property names of [Object.prototype].  The state is a plain
    object ([{}], or a spread [{ ...currentState }]), so under these names
    it has a value also when it has no own property. *)
Definition Object_prototype_names : list string :=
  ["constructor"; "hasOwnProperty"; "isPrototypeOf"; "propertyIsEnumerable";
   "toLocaleString"; "toString"; "valueOf"; "__proto__";
   "__defineGetter__"; "__defineSetter__"; "__lookupGetter__"; "__lookupSetter__"].

Definition inherited (key : string) : bool :=
  bool_decide (key ∈ Object_prototype_names).

(** [state[key]]: the own property when there is one, else what the
    prototype holds under that name (a function, or for [__proto__] the
    prototype itself), else [undefined]. *)
Definition js_get (state : DetectionState) (key : string) : option StateVal :=
  match state !! key with
  | Some v => Some v
  | None => if inherited key then Some VObject else None
  end.

(** ** The detection logic *)

Section Detection.
Context `{MathLib}.

(** Haversine distance *)
Definition getDistance (pos1 pos2 : Point) : float :=
  (let R := 6371e3 in
   let phi1 := pos1.1 * Math_PI / 180 in
   let phi2 := pos2.1 * Math_PI / 180 in
   let dphi := (pos2.1 - pos1.1) * Math_PI / 180 in
   let dlam := (pos2.2 - pos1.2) * Math_PI / 180 in
   let a := Math_sin (dphi / 2) * Math_sin (dphi / 2) +
            Math_cos phi1 * Math_cos phi2 *
            Math_sin (dlam / 2) * Math_sin (dlam / 2) in
   let c := 2 * Math_atan2 (sqrt a) (sqrt (1 - a)) in
   R * c)%float.

(** Creates a raw sensor event if an actor is detected by a sensor. *)
Definition generateSensorEvent (actor : Actor.t) (sensor : Sensor.t)
    (weather : Weather) : M (option SensorEvent.t) :=
  let distance := getDistance (Actor.pos actor) (Sensor.pos sensor) in
  if (distance <=? Sensor.range sensor)%float then
    let detectionProb := Sensor.base_p sensor in
    let penalty := Sensor.weather_penalty sensor weather in
    let detectionProb :=
      match penalty with
      | Some f => if truthy f then (detectionProb * f)%float else detectionProb
      | None => detectionProb
      end in
    let detectionProb :=
      (detectionProb * (1 - distance / Sensor.range sensor))%float in
    let detectionProb :=
      match Actor.type actor with
      | adversary => (detectionProb * 0.8)%float
      | civilian => detectionProb
      end in
    r ← prng_random;
    if (r <? detectionProb)%float then
      ts ← Date_now;
      mret (Some (SensorEvent.mk ts (Sensor.id sensor) (Actor.id actor)
                                 detectionProb (Actor.pos actor)))
    else mret None
  else mret None.

(** *** Step 1 of [runDetectionLogic]: events for all actors from all
    sensors, in the order of the two nested loops. *)
Fixpoint scanSensors (actor : Actor.t) (sensors : list Sensor.t)
    (weather : Weather) (newEvents : list SensorEvent.t)
    : M (list SensorEvent.t) :=
  match sensors with
  | [] => mret newEvents
  | sensor :: rest =>
      event ← generateSensorEvent actor sensor weather;
      scanSensors actor rest weather
        (match event with Some e => newEvents ++ [e] | None => newEvents end)
  end.

Fixpoint scanActors (actors : list Actor.t) (sensors : list Sensor.t)
    (weather : Weather) (newEvents : list SensorEvent.t)
    : M (list SensorEvent.t) :=
  match actors with
  | [] => mret newEvents
  | actor :: rest =>
      newEvents' ← scanSensors actor sensors weather newEvents;
      scanActors rest sensors weather newEvents'
  end.

(** *** The rule engine: the body of [rules.forEach] *)

Definition is_adversary (a : Actor.t) : bool :=
  match Actor.type a with adversary => true | civilian => false end.

(** [e.actorId === adversary?.id] *)
Definition of_adversary (adversary : option Actor.t) (e : SensorEvent.t) : bool :=
  match adversary with
  | Some a => bool_decide (SensorEvent.actorId e = Actor.id a)
  | None => false
  end.

(** [now - e.timestamp < rule.params.time_window_s * 1000] *)
Definition in_window (now : Z) (rule : DetectionRule.t) (e : SensorEvent.t) : bool :=
  now - SensorEvent.timestamp e
    <? Params.time_window_s (DetectionRule.params rule) * 1000.

(** [(nextState[stateKey] || [])] as the receiver of [.filter] or
    [.concat]: a missing entry and the number 0 are falsy and give the
    empty list, a list is itself, and any other number, a function or an
    object that is no array has no such method (a [TypeError], [None]
    here). *)
Definition events_or_empty (v : option StateVal) : option (list SensorEvent.t) :=
  match v with
  | None => Some []
  | Some (VEvents l) => Some l
  | Some (VNum n) => if n =? 0 then Some [] else None
  | Some VObject => None
  end.

(** [!nextState[cooldownKey] || now > nextState[cooldownKey]].  A list
    under that key is truthy and compares as the number its string form
    denotes: 0 for the empty list, NaN otherwise.  A function or other
    object is truthy and compares as NaN. *)
Definition cooldown_over (now : Z) (v : option StateVal) : bool :=
  match v with
  | None => true
  | Some (VNum c) => (c =? 0) || (c <? now)
  | Some (VEvents []) => 0 <? now
  | Some (VEvents (_ :: _)) => false
  | Some VObject => false
  end.

Definition nearbyActorIds (rule : DetectionRule.t) (advEvent : SensorEvent.t)
    (history : list SensorEvent.t) : gset string :=
  foldl (fun ids histEvent =>
           if (getDistance (SensorEvent.actorPos advEvent)
                           (SensorEvent.actorPos histEvent)
               <? Params.radius_m (DetectionRule.params rule))%float
           then ids ∪ {[ SensorEvent.actorId histEvent ]}
           else ids)
        {[ SensorEvent.actorId advEvent ]} history.

Definition cooldownKey (stateKey : string) : string := stateKey +:+ "-cooldown".

Definition group_alert (now : Z) (n : nat) : Alert.t :=
  Alert.mk ("alert-gs-" +:+ pretty now) now
    ("Suspicious group of " +:+ pretty n +:+ " actors detected near adversary.")
    critical [].

(** One iteration of [for (const advEvent of adversaryEventsThisTick)]. *)
Definition group_step (now : Z) (rule : DetectionRule.t)
    (history : list SensorEvent.t)
    (acc : list Alert.t * DetectionState) (advEvent : SensorEvent.t)
    : list Alert.t * DetectionState :=
  let '(newAlerts, nextState) := acc in
  let ids := nearbyActorIds rule advEvent history in
  if Params.min_actors (DetectionRule.params rule) <=? Z.of_nat (size ids) then
    let key := cooldownKey (DetectionRule.id rule) in
    if cooldown_over now (js_get nextState key) then
      (newAlerts ++ [group_alert now (size ids)],
       <[ key := VNum (now + Params.time_window_s (DetectionRule.params rule) * 1000) ]>
         nextState)
    else acc
  else acc.

Definition hc_alert (now : Z) (adversaryEvent : SensorEvent.t) : Alert.t :=
  Alert.mk ("alert-hc-" +:+ pretty now) now
    ("High confidence sighting of adversary by "
       +:+ SensorEvent.sensorId adversaryEvent +:+ ".")
    critical [adversaryEvent].

Definition ps_alert (now : Z) (history : list SensorEvent.t) : Alert.t :=
  Alert.mk ("alert-ps-" +:+ pretty now) now
    "Persistent presence of adversary detected." critical history.

(** The [switch (rule.type)] for one rule.  [None] is a [TypeError]. *)
Definition apply_rule (now : Z) (adversary : option Actor.t)
    (newEvents : list SensorEvent.t) (rule : DetectionRule.t)
    (acc : list Alert.t * DetectionState)
    : option (list Alert.t * DetectionState) :=
  let '(newAlerts, nextState) := acc in
  let stateKey := DetectionRule.id rule in
  let params := DetectionRule.params rule in
  if decide (DetectionRule.type rule = "high_confidence_sighting") then
    match List.find (fun e => of_adversary adversary e &&
                       (Params.min_confidence params <? SensorEvent.confidence e)%float)
                    newEvents with
    | Some adversaryEvent => Some (newAlerts ++ [hc_alert now adversaryEvent], nextState)
    | None => Some acc
    end
  else if decide (DetectionRule.type rule = "persistent_sighting") then
    stored ← events_or_empty (js_get nextState stateKey);
    let history := List.filter (in_window now rule) stored
                     ++ List.filter (of_adversary adversary) newEvents in
    if Params.min_detections params <=? Z.of_nat (length history) then
      Some (newAlerts ++ [ps_alert now history], <[ stateKey := VEvents [] ]> nextState)
    else
      Some (newAlerts, <[ stateKey := VEvents history ]> nextState)
  else if decide (DetectionRule.type rule = "group_sighting") then
    stored ← events_or_empty (js_get nextState stateKey);
    let history := List.filter (in_window now rule) (stored ++ newEvents) in
    let nextState := <[ stateKey := VEvents history ]> nextState in
    let adversaryEventsThisTick := List.filter (of_adversary adversary) newEvents in
    Some (foldl (group_step now rule history) (newAlerts, nextState)
                adversaryEventsThisTick)
  else Some acc.

Definition evaluateRules (now : Z) (adversary : option Actor.t)
    (newEvents : list SensorEvent.t) (rules : list DetectionRule.t)
    (currentState : DetectionState)
    : option (list Alert.t * DetectionState) :=
  foldl (fun acc rule => acc ≫= apply_rule now adversary newEvents rule)
        (Some ([], currentState)) rules.

Record DetectionResult := mkResult {
  newAlerts : list Alert.t;
  newEvents : list SensorEvent.t;
  updatedState : DetectionState
}.

(** Processes sensor events against a set of rules to generate alerts.
    [None] is the [TypeError] a rule may raise. *)
Definition runDetectionLogic (actors : list Actor.t) (sensors : list Sensor.t)
    (weather : Weather) (rules : list DetectionRule.t)
    (currentState : DetectionState) : M (option DetectionResult) :=
  events ← scanActors actors sensors weather [];
  if (length events =? 0)%nat then
    mret (Some (mkResult [] events currentState))
  else
    now ← Date_now;
    let adversary := List.find is_adversary actors in
    mret (match evaluateRules now adversary events rules currentState with
          | Some (alerts, nextState) => Some (mkResult alerts events nextState)
          | None => None
          end).

End Detection.

(** ** [src/features/adversarial_simulator/mapData.ts] *)

(** The table, in the order [Object.keys] lists it. *)
Definition POINTS_OF_INTEREST : list (string * Point) :=
  [ ("Parking", (34.021, 75.320)%float);
    ("Meadow", (34.029, 75.310)%float);
    ("PatrolPost", (34.024, 75.316)%float);
    ("Viewpoint", (34.0285, 75.319)%float);
    ("Bridge", (34.022, 75.313)%float);
    ("Cafe", (34.027, 75.309)%float) ].

(** Stands for the [undefined] of a lookup that misses.  The lookups below
    never miss ([poi_pos_key], [validatePath_nonempty],
    [advance_lookup]); the value is never read. *)
Definition undefined_pos : Point := (nan, nan).

(** [POINTS_OF_INTEREST[name].pos] *)
Definition poi_pos (name : string) : Point :=
  default undefined_pos ((list_to_map POINTS_OF_INTEREST : gmap string Point) !! name).

(** ** [src/services/geminiService.ts]: validation of the generated path *)

(** [response] is the path of the parsed answer; [None] stands for an
    answer without a path and for the [catch] branch. *)
Definition validatePath (start end_ : string) (response : option (list Point))
    : list Point :=
  match response with
  | Some (p :: ps) =>
      <[ (length (p :: ps) - 1)%nat := poi_pos end_ ]> (<[ 0%nat := poi_pos start ]> (p :: ps))
  | _ => [poi_pos start; poi_pos end_]
  end.

(** ** [src/features/adversarial_simulator/AdversarialSimulator.tsx] *)

Definition CIVILIAN_COUNT : nat := 10.

(** [Math.floor(prng.random() * n)].  The draw is [u / 2^32] with
    [0 <= u < 2^32]; for [n < 2^21] the double product [u * n / 2^32] is
    exact, so its floor is the integer quotient. *)
Definition random_index (u : Z) (n : nat) : nat := Z.to_nat (u * Z.of_nat n / 2 ^ 32).

(** The floor of a non-negative finite double, read off its mantissa and
    exponent; [random_index_float] is the source expression on doubles. *)
Definition floor_nonneg (x : float) : Z :=
  match Prim2SF x with
  | S754_finite false m e => Z.shiftl (Z.pos m) e
  | _ => 0
  end.

Definition random_index_float (u : Z) (n : nat) : nat :=
  Z.to_nat (floor_nonneg (PRNG.u32_to_float u
                          * PrimFloat.of_uint63 (Uint63.of_Z (Z.of_nat n)))%float).

Definition getRandomPoiName (exclude : list string) : M string :=
  let poiNames := filter (fun name => name ∉ exclude) (POINTS_OF_INTEREST.*1) in
  u ← prng_u32;
  mret (nth (random_index u (length poiNames)) poiNames "").

Inductive Verdict := DETECTED | BYPASSED.

(** The two variables the interval callback closes over. *)
Record SimState := mkSim {
  currentActors : list Actor.t;
  detectionState : DetectionState
}.

Inductive TickOutcome :=
| Resolved (v : Verdict)
| Running (s : SimState).

Section Orchestrator.
Context `{MathLib}.

(** The callback of [currentActors.map]. *)
Definition advance (actor : Actor.t) : M Actor.t :=
  if Z.of_nat (Actor.pathIndex actor) >=? Z.of_nat (length (Actor.path actor)) - 1 then
    match Actor.type actor with
    | civilian =>
        name ← getRandomPoiName [];
        let newPath := [Actor.pos actor; poi_pos name] in
        mret (Actor.mk (Actor.id actor) (Actor.type actor) (Actor.pos actor)
                       newPath 0 (Actor.speed actor) (Actor.gpsMode actor))
    | adversary => mret actor
    end
  else
    let newPathIndex := (Actor.pathIndex actor + 1)%nat in
    mret (Actor.mk (Actor.id actor) (Actor.type actor)
                   (default undefined_pos (Actor.path actor !! newPathIndex))
                   (Actor.path actor) newPathIndex
                   (Actor.speed actor) (Actor.gpsMode actor)).

Definition is_critical (a : Alert.t) : bool :=
  match Alert.level a with critical => true | _ => false end.

(** One run of the interval callback.  A [TypeError] out of
    [runDetectionLogic] ends the callback after [currentActors] was
    assigned and before [detectionState] is; the interval stays armed. *)
Definition tick (sensors : list Sensor.t) (rules : list DetectionRule.t)
    (s : SimState) : M TickOutcome :=
  actors ← mapM advance (currentActors s);
  match List.find is_adversary actors with
  | None => mret (Resolved BYPASSED)
  | Some adv =>
      if Z.of_nat (Actor.pathIndex adv)
           >=? Z.of_nat (length (Actor.path adv)) - 1
      then mret (Resolved BYPASSED)
      else
        r ← runDetectionLogic actors sensors clear rules (detectionState s);
        match r with
        | None => mret (Running (mkSim actors (detectionState s)))
        | Some res =>
            if existsb is_critical (newAlerts res)
            then mret (Resolved DETECTED)
            else mret (Running (mkSim actors (updatedState res)))
        end
  end.

(** The interval: [fuel] bounds the number of callbacks observed. *)
Fixpoint ticks (fuel : nat) (sensors : list Sensor.t)
    (rules : list DetectionRule.t) (s : SimState) : M (option Verdict) :=
  match fuel with
  | O => mret None
  | S fuel' =>
      o ← tick sensors rules s;
      match o with
      | Resolved v => mret (Some v)
      | Running s' => ticks fuel' sensors rules s'
      end
  end.

Definition runSimulationPromise (fuel : nat) (initialActors : list Actor.t)
    (sensors : list Sensor.t) (rules : list DetectionRule.t) : M (option Verdict) :=
  ticks fuel sensors rules (mkSim initialActors ∅).

(** The interval seen as a trace of callbacks: from the state [s] in the
    world [w], [k] callbacks leave the run going and the next one resolves
    the promise with [v]. *)
Inductive resolves_after (sensors : list Sensor.t) (rules : list DetectionRule.t)
    : nat -> SimState -> World -> Verdict -> Prop :=
| resolves_now s w v :
    (tick sensors rules s w).1 = Resolved v ->
    resolves_after sensors rules 0 s w v
| resolves_later k s w s' v :
    (tick sensors rules s w).1 = Running s' ->
    resolves_after sensors rules k s' (tick sensors rules s w).2 v ->
    resolves_after sensors rules (S k) s w v.

(** Actor creation in [handleStartScenario]. *)
Definition mkCivilian (i : nat) : M Actor.t :=
  startPoi ← getRandomPoiName [];
  endPoi ← getRandomPoiName [startPoi];
  mret (Actor.mk ("civ-" +:+ pretty i) civilian (poi_pos startPoi)
                 [poi_pos startPoi; poi_pos endPoi] 0 10 gps_on).

Definition mkCivilians : M (list Actor.t) := mapM mkCivilian (seq 0 CIVILIAN_COUNT).

Definition mkAdversary (scenario_path : list Point) (gps : GpsMode) : Actor.t :=
  Actor.mk "adv-1" adversary (default undefined_pos (scenario_path !! 0%nat))
           scenario_path 0 20 gps.

(** [initialActors = [adversary, ...civilians]]; the civilians are drawn
    first, the path comes from [generateAdversarialScenario]. *)
Definition initialActors (response : option (list Point)) (gps : GpsMode)
    : M (list Actor.t) :=
  civilians ← mkCivilians;
  mret (mkAdversary (validatePath "Parking" "Meadow" response) gps :: civilians).

End Orchestrator.

(** ** A concrete [MathLib]

    Truncated power series, adequate for arguments near zero.  They honour
    the values ECMAScript fixes exactly ([sin(+0) = +0] and
    [atan2(+0, x) = +0] for [x > 0]) and serve to evaluate the embedding on
    concrete inputs. *)
Definition series_sin (x : float) : float :=
  (x - x * x * x / 6 + x * x * x * x * x / 120)%float.
Definition series_cos (x : float) : float :=
  (1 - x * x / 2 + x * x * x * x / 24 - x * x * x * x * x * x / 720)%float.
Definition series_atan2 (y x : float) : float :=
  (let z := y / x in z - z * z * z / 3 + z * z * z * z * z / 5)%float.

Definition series_math : MathLib :=
  {| Math_sin := series_sin; Math_cos := series_cos; Math_atan2 := series_atan2 |}.

(** ** Specification-side definitions *)

Section Specification.
Context `{MathLib}.

(** The detection probability as section 4.3 of the specification words
    it: the base probability, times the weather penalty when the sensor
    has an applicable one, times the linear falloff, times 0.8 for an
    adversary. *)
Definition penalty_applies (sensor : Sensor.t) (weather : Weather) : option float :=
  match Sensor.weather_penalty sensor weather with
  | Some f => if truthy f then Some f else None
  | None => None
  end.

Definition spec_probability (actor : Actor.t) (sensor : Sensor.t)
    (weather : Weather) : float :=
  let distance := getDistance (Actor.pos actor) (Sensor.pos sensor) in
  let weathered := match penalty_applies sensor weather with
                   | Some f => (Sensor.base_p sensor * f)%float
                   | None => Sensor.base_p sensor
                   end in
  let fallen := (weathered * (1 - distance / Sensor.range sensor))%float in
  match Actor.type actor with
  | adversary => (fallen * 0.8)%float
  | civilian => fallen
  end.

(** The probability with every entry of [weather_penalty] applied as a
    factor, zero included. *)
Definition spec_probability_every_factor (actor : Actor.t) (sensor : Sensor.t)
    (weather : Weather) : float :=
  let distance := getDistance (Actor.pos actor) (Sensor.pos sensor) in
  let weathered := match Sensor.weather_penalty sensor weather with
                   | Some f => (Sensor.base_p sensor * f)%float
                   | None => Sensor.base_p sensor
                   end in
  let fallen := (weathered * (1 - distance / Sensor.range sensor))%float in
  match Actor.type actor with
  | adversary => (fallen * 0.8)%float
  | civilian => fallen
  end.

(** The rule types the engine knows. *)
Definition recognized (rule : DetectionRule.t) : bool :=
  bool_decide (DetectionRule.type rule ∈
                 ["high_confidence_sighting"; "persistent_sighting"; "group_sighting"]).

(** The count of a group_sighting rule reaches [min_actors] for the
    adversary event [e], given the rule's pruned history. *)
Definition qualifies (rule : DetectionRule.t) (history : list SensorEvent.t)
    (e : SensorEvent.t) : bool :=
  Params.min_actors (DetectionRule.params rule)
    <=? Z.of_nat (size (nearbyActorIds rule e history)).

(** [h] lies within [radius_m] of [e]. *)
Definition near (rule : DetectionRule.t) (e h : SensorEvent.t) : bool :=
  (getDistance (SensorEvent.actorPos e) (SensorEvent.actorPos h)
   <? Params.radius_m (DetectionRule.params rule))%float.

(** The cooldown of a group_sighting rule "is still in the future
    relative to now". *)
Definition cooldown_in_future (now : Z) (v : option StateVal) : bool :=
  match v with
  | Some (VNum c) => now <? c
  | _ => false
  end.

(** What a sensor event records besides the time it was made. *)
Definition erase_time (e : SensorEvent.t) : string * string * float * Point :=
  (SensorEvent.sensorId e, SensorEvent.actorId e,
   SensorEvent.confidence e, SensorEvent.actorPos e).

End Specification.

(** An actor stands on its path: [pathIndex] is a valid index into [path]
    and [pos] is the waypoint there. *)
Definition well_placed (a : Actor.t) : Prop :=
  Actor.path a !! Actor.pathIndex a = Some (Actor.pos a).

(** What [advance] makes of an adversary; it draws nothing. *)
Definition advance_adversary (a : Actor.t) : Actor.t :=
  if Z.of_nat (Actor.pathIndex a) >=? Z.of_nat (length (Actor.path a)) - 1 then a
  else Actor.mk (Actor.id a) (Actor.type a)
                (default undefined_pos (Actor.path a !! (Actor.pathIndex a + 1)%nat))
                (Actor.path a) (Actor.pathIndex a + 1)
                (Actor.speed a) (Actor.gpsMode a).

(** The waypoints an actor still has before the last one. *)
Definition remaining (a : Actor.t) : nat :=
  (length (Actor.path a) - 1 - Actor.pathIndex a)%nat.

(** Two worlds agree when their generators are in the same state and
    their clocks give the same readings from the next one on. *)
Definition agree (w1 w2 : World) : Prop :=
  prng w1 = prng w2 /\ reads w1 = reads w2
  /\ forall n, (reads w1 <= n)%nat -> clock w1 n = clock w2 n.

(** ** Inputs for the concrete evaluations *)

Module Ex.

Definition here : Point := (34.026, 75.318)%float.
Definition far : Point := (34.021, 75.320)%float.

Definition camera_S01 : Sensor.t :=
  Sensor.mk "S01" camera here 150 0.8
            (fun w => match w with fog => Some 0.4%float | clear => None end).

(** A sensor whose fog entry is the factor zero. *)
Definition camera_blind_in_fog : Sensor.t :=
  Sensor.mk "S09" camera here 150 0.8
            (fun w => match w with fog => Some 0%float | clear => None end).

Definition walker (p : Point) : Actor.t :=
  Actor.mk "civ-0" civilian p [p; far] 0 10 gps_on.

Definition intruder (p : Point) : Actor.t :=
  Actor.mk "adv-1" adversary p [p; here; far; far] 0 20 gps_off.

Definition world (seed : Z) (time : Z) : World :=
  mkWorld (PRNG.mk seed) (fun _ => time) 0.

Definition sighting (time : Z) (actorId : string) (p : Point) : SensorEvent.t :=
  SensorEvent.mk time "S01" actorId 0.64 p.

Definition persistent_rule : DetectionRule.t :=
  DetectionRule.mk "persistent_sighting_v1" "persistent_sighting"
                   (Params.mk 0 10 3 0 0).

Definition group_rule : DetectionRule.t :=
  DetectionRule.mk "group_sighting_meadow" "group_sighting"
                   (Params.mk 0 10 0 50 1).

Definition hc_rule : DetectionRule.t :=
  DetectionRule.mk "high_confidence_sighting_v1" "high_confidence_sighting"
                   (Params.mk 0.5 0 0 0 0).

Definition future_rule : DetectionRule.t :=
  DetectionRule.mk "gait_v1" "gait_anomaly" (Params.mk 0 10 1 0 1).

End Ex.

(** ** Further code of the simulator *)

(** [n] successive calls of [next()], as numerators, and the generator
    they leave. *)
Fixpoint draws (n : nat) (g : PRNG.t) : list Z * PRNG.t :=
  match n with
  | O => ([], g)
  | S n' =>
      let '(u, g') := PRNG.next_u32 g in
      let '(us, g'') := draws n' g' in
      (u :: us, g'')
  end.

Module PatchSuggestion.
Record t := mk { rule : DetectionRule.t; explanation : string }.
End PatchSuggestion.

(** [handleStartScenario]: the rules a run starts with,
    [rules.filter(r => r.type !== 'persistent_sighting' &&
    r.type !== 'group_sighting')]. *)
Definition startRules (rules : list DetectionRule.t) : list DetectionRule.t :=
  List.filter (fun r => negb (bool_decide (DetectionRule.type r = "persistent_sighting"))
                        && negb (bool_decide (DetectionRule.type r = "group_sighting")))
              rules.

(** [resetFullExperiment]:
    [rules.filter(r => r.type !== 'persistent_sighting')]. *)
Definition resetRules (rules : list DetectionRule.t) : list DetectionRule.t :=
  List.filter (fun r => negb (bool_decide (DetectionRule.type r = "persistent_sighting")))
              rules.

(** [handleStartScenario], after a bypass:
    [[...currentRules.filter(r => r.id !== patch.rule.id), patch.rule]]. *)
Definition applyPatch (currentRules : list DetectionRule.t)
    (generatedPatch : PatchSuggestion.t) : list DetectionRule.t :=
  List.filter (fun r => negb (bool_decide
                 (DetectionRule.id r
                  = DetectionRule.id (PatchSuggestion.rule generatedPatch))))
              currentRules
  ++ [PatchSuggestion.rule generatedPatch].

(** [MapComponent]: the two polylines drawn for the adversary,
    [path.slice(0, pathIndex + 1)] and [path.slice(pathIndex)]. *)
Definition traversedPoints (adv : Actor.t) : list Point :=
  take (Actor.pathIndex adv + 1) (Actor.path adv).

Definition plannedPoints (adv : Actor.t) : list Point :=
  drop (Actor.pathIndex adv) (Actor.path adv).

(** The text helper that follows the simulator in its file.  A character
    stands for one code unit of the JavaScript string. *)

(** [text.slice(0, end)] for an integer [end]: a negative [end] counts from
    the end of the text. *)
Definition slice_from_start (text : string) (end_ : Z) : string :=
  let len := Z.of_nat (String.length text) in
  let stop := if end_ <? 0 then Z.max (len + end_) 0 else Z.min end_ len in
  String.substring 0 (Z.to_nat stop) text.

(** Truncates a string to a maximum length and adds an ellipsis. *)
Definition truncateText (text : string) (maxLength : Z) : string :=
  if Z.of_nat (String.length text) <=? maxLength then text
  else slice_from_start text maxLength +:+ "...".

(** ** Vocabulary of the further properties *)

Section Vocabulary.
Context `{MathLib}.

(** The test [distance <= sensor.range] of [generateSensorEvent]. *)
Definition in_range (actor : Actor.t) (sensor : Sensor.t) : bool :=
  (getDistance (Actor.pos actor) (Sensor.pos sensor) <=? Sensor.range sensor)%float.

(** The (actor, sensor) pairs in range, in the order of the two loops. *)
Definition pairs_in_range (actors : list Actor.t) (sensors : list Sensor.t)
    : list (Actor.t * Sensor.t) :=
  List.filter (fun '(a, s) => in_range a s) (list_prod actors sensors).

(** The event [e] records a detection of [actor] by [sensor]. *)
Definition event_of (weather : Weather) (actor : Actor.t) (sensor : Sensor.t)
    (e : SensorEvent.t) : Prop :=
  in_range actor sensor = true
  /\ SensorEvent.actorId e = Actor.id actor
  /\ SensorEvent.sensorId e = Sensor.id sensor
  /\ SensorEvent.actorPos e = Actor.pos actor
  /\ SensorEvent.confidence e = spec_probability actor sensor weather.

End Vocabulary.

(** A rule that reads or writes the rolling state. *)
Definition stateful (rule : DetectionRule.t) : Prop :=
  DetectionRule.type rule = "persistent_sighting"
  \/ DetectionRule.type rule = "group_sighting".

(** No stateful rule is named like the cooldown key of a group_sighting
    rule of the list. *)
Definition keys_apart (rules : list DetectionRule.t) : Prop :=
  forall r1 r2, r1 ∈ rules -> r2 ∈ rules -> stateful r1 ->
    DetectionRule.type r2 = "group_sighting" ->
    DetectionRule.id r1 <> cooldownKey (DetectionRule.id r2).

(** The read of the state under the id of every stateful rule gives a
    list (or nothing, or zero). *)
Definition lists_under (rules : list DetectionRule.t) (st : DetectionState) : Prop :=
  forall r, r ∈ rules -> stateful r ->
    is_Some (events_or_empty (js_get st (DetectionRule.id r))).

(** The last character of a key. *)
Fixpoint last_char (key : string) : option Ascii.ascii :=
  match key with
  | EmptyString => None
  | String c EmptyString => Some c
  | String _ rest => last_char rest
  end.

(** The increment of the generator's seed. *)
Definition seed_step : Z := 0x6D2B79F5.

(** The seed is a JavaScript number, an exact integer up to 2^53 in
    magnitude.  Over [n] draws from the seed [s] it stays one when
    [|s| + n * seed_step] does not exceed that bound. *)
Definition stays_exact (s : Z) (n : nat) : Prop :=
  Z.abs s + Z.of_nat n * seed_step <= 2 ^ 53.

(** Civilians standing at the end of their path, who draw a new one. *)
Definition repathing (a : Actor.t) : bool :=
  negb (is_adversary a)
  && (Z.of_nat (Actor.pathIndex a) >=? Z.of_nat (length (Actor.path a)) - 1).

(** The shape of every alert the engine builds at time [now]. *)
Definition alert_of (now : Z) (a : Alert.t) : Prop :=
  Alert.level a = critical
  /\ Alert.timestamp a = now
  /\ Alert.id a ∈ ["alert-hc-" +:+ pretty now; "alert-ps-" +:+ pretty now;
                   "alert-gs-" +:+ pretty now].

(** ** Proof automation *)

(** Decides a threshold test [k <=? length l] on a list of known length. *)
Ltac eval_threshold :=
  match goal with
  | |- context [?a <=? Z.of_nat (length ?l)] =>
      let b := eval vm_compute in (a <=? Z.of_nat (length l)) in
      change (a <=? Z.of_nat (length l)) with b
  | |- context [?a <=? Z.of_nat ?n] =>
      let b := eval vm_compute in (a <=? Z.of_nat n) in
      change (a <=? Z.of_nat n) with b
  end; cbv iota.

(** Settles a closed decidable proposition by evaluating its decision. *)
Ltac decide_by_compute :=
  match goal with
  | |- ?P => apply (bool_decide_eq_true_1 P); vm_compute; reflexivity
  end.

(** Membership in a list that is written out. *)
Ltac each_of H :=
  rewrite list_elem_of_In in H; cbn [In] in H;
  repeat match type of H with
         | _ \/ _ => destruct H as [<-|H]
         | False => destruct H
         end.

(** * Verification *)

(** ** Reading the state object *)

Lemma js_get_own (st : DetectionState) (key : string) (v : StateVal) :
  st !! key = Some v -> js_get st key = Some v.
Proof. intros Hv. unfold js_get. now rewrite Hv. Qed.

Lemma js_get_insert_eq (st : DetectionState) (key : string) (v : StateVal) :
  js_get (<[ key := v ]> st) key = Some v.
Proof. apply js_get_own, lookup_insert_eq. Qed.

Lemma js_get_insert_ne (st : DetectionState) (key key' : string) (v : StateVal) :
  key <> key' -> js_get (<[ key := v ]> st) key' = js_get st key'.
Proof. intros Hne. unfold js_get. now rewrite lookup_insert_ne. Qed.

Lemma js_get_ext (st st' : DetectionState) (key : string) :
  st' !! key = st !! key -> js_get st' key = js_get st key.
Proof. intros Heq. unfold js_get. now rewrite Heq. Qed.

Lemma js_get_plain (st : DetectionState) (key : string) :
  inherited key = false -> js_get st key = st !! key.
Proof. intros Hkey. unfold js_get. rewrite Hkey. now destruct (st !! key). Qed.

Lemma last_char_app (key : string) (c : Ascii.ascii) (rest : string) :
  last_char (key +:+ String c rest) = last_char (String c rest).
Proof.
  induction key as [|a key IH]; [reflexivity|].
  change (String a key +:+ String c rest) with (String a (key +:+ String c rest)).
  cbn [last_char]. rewrite IH.
  now destruct key.
Qed.

(** No property of [Object.prototype] is named like a cooldown key: the
    read of a cooldown key is a read of an own property. *)
Lemma inherited_cooldownKey (key : string) : inherited (cooldownKey key) = false.
Proof.
  apply bool_decide_eq_false. intros Hin. unfold Object_prototype_names in Hin.
  rewrite list_elem_of_In in Hin. cbn [In] in Hin.
  repeat (destruct Hin as [Hin|Hin];
          [apply (f_equal last_char) in Hin; unfold cooldownKey in Hin;
           rewrite last_char_app in Hin; vm_compute in Hin; discriminate|]).
  exact Hin.
Qed.

Lemma js_get_cooldownKey (st : DetectionState) (key : string) :
  js_get st (cooldownKey key) = st !! cooldownKey key.
Proof. apply js_get_plain, inherited_cooldownKey. Qed.

(** ** Doubles *)

Lemma SFcompare_Lt_Gt (a b : spec_float) :
  SFcompare a b = Some Lt -> SFcompare b a = Some Gt.
Proof.
  destruct a as [sa | sa | | sa ma ea], b as [sb | sb | | sb mb eb]; simpl;
    try discriminate;
    try (destruct sa; (discriminate || reflexivity));
    try (destruct sb; (discriminate || reflexivity));
    try (destruct sa, sb; (discriminate || reflexivity)).
  rewrite (Z.compare_antisym ea eb).
  change (PosDef.Pos.compare_cont Eq mb ma) with (Pos.compare mb ma).
  change (PosDef.Pos.compare_cont Eq ma mb) with (Pos.compare ma mb).
  rewrite (Pos.compare_antisym ma mb).
  destruct sa, sb; try discriminate; try reflexivity;
    destruct (ea ?= eb); simpl; try discriminate; try reflexivity;
    destruct (ma ?= mb)%positive; simpl; try discriminate; reflexivity.
Qed.

(** [x > y] excludes [x <= y], NaN included. *)
Lemma float_gt_not_le (x y : float) :
  (y <? x)%float = true -> (x <=? y)%float = false.
Proof.
  rewrite ltb_spec, leb_spec. unfold SFltb, SFleb.
  destruct (SFcompare (Prim2SF y) (Prim2SF x)) as [[| |]|] eqn:E; try discriminate.
  intros _. now rewrite (SFcompare_Lt_Gt _ _ E).
Qed.

(** ** The generator *)

Lemma next_u32_range (g : PRNG.t) : 0 <= (PRNG.next_u32 g).1 < 2 ^ 32.
Proof.
  unfold PRNG.next_u32, PRNG.ushr, PRNG.ToUint32. cbn [fst].
  rewrite Z.shiftr_0_r. apply Z.mod_pos_bound. lia.
Qed.

Lemma next_u32_seed (g : PRNG.t) :
  PRNG.seed (PRNG.next_u32 g).2 = PRNG.seed g + 0x6D2B79F5.
Proof. reflexivity. Qed.

(** The integer quotient of [random_index] is what the doubles give, here
    at the ends of the range and around a boundary between two indices. *)
Lemma random_index_float_agrees :
  Forall (fun u => random_index_float u 6 = random_index u 6
                   /\ random_index_float u 5 = random_index u 5)
         [0; 1; 715827882; 715827883; 2863311530; 2863311531; 4294967295].
Proof. repeat constructor; vm_compute; reflexivity. Qed.

Lemma random_index_lt (u : Z) (n : nat) :
  0 <= u < 2 ^ 32 -> (0 < n)%nat -> (random_index u n < n)%nat.
Proof.
  intros Hu Hn. unfold random_index.
  assert (u * Z.of_nat n / 2 ^ 32 < Z.of_nat n).
  { apply Z.div_lt_upper_bound; nia. }
  assert (0 <= u * Z.of_nat n / 2 ^ 32) by (apply Z.div_pos; nia).
  lia.
Qed.

(** ** The sensor detection model *)

Section DetectionModel.
Context `{MathLib}.

Lemma prng_random_run (w : World) :
  prng_random w = ((PRNG.random (prng w)).1,
                   mkWorld (PRNG.random (prng w)).2 (clock w) (reads w)).
Proof. unfold prng_random. now destruct (PRNG.random (prng w)). Qed.

(** The probability the code accumulates is the one the specification
    words. *)
Lemma generateSensorEvent_unfold (actor : Actor.t) (sensor : Sensor.t)
    (weather : Weather) (w : World) :
  generateSensorEvent actor sensor weather w =
    if (getDistance (Actor.pos actor) (Sensor.pos sensor) <=? Sensor.range sensor)%float
    then
      let p := spec_probability actor sensor weather in
      let r := (PRNG.random (prng w)).1 in
      let g := (PRNG.random (prng w)).2 in
      if (r <? p)%float
      then (Some (SensorEvent.mk (clock w (reads w)) (Sensor.id sensor)
                                 (Actor.id actor) p (Actor.pos actor)),
            mkWorld g (clock w) (S (reads w)))
      else (None, mkWorld g (clock w) (reads w))
    else (None, w).
Proof.
  unfold generateSensorEvent, spec_probability, penalty_applies.
  destruct (_ <=? _)%float; [|reflexivity].
  unfold mbind, M_bind. rewrite prng_random_run. cbv zeta.
  destruct (Sensor.weather_penalty sensor weather) as [f|];
    [destruct (truthy f)|]; destruct (Actor.type actor);
    match goal with |- context [(?r <? ?p)%float] => destruct (r <? p)%float end;
    reflexivity.
Qed.

(** C5.  Whenever the distance between the actor and the sensor exceeds
    the sensor's range, [generateSensorEvent] returns no event and leaves
    the world as it found it: no draw is taken from the generator and the
    clock is not read. *)
Theorem generateSensorEvent_beyond_range (actor : Actor.t) (sensor : Sensor.t)
    (weather : Weather) (w : World) :
  (Sensor.range sensor <? getDistance (Actor.pos actor) (Sensor.pos sensor))%float = true ->
  generateSensorEvent actor sensor weather w = (None, w).
Proof.
  intros Hfar. rewrite generateSensorEvent_unfold.
  now rewrite (float_gt_not_le _ _ Hfar).
Qed.

(** C4.  For an actor within the sensor's range, with [p] the base
    probability times the applicable weather penalty times the falloff
    [1 - distance / range] times 0.8 for an adversary, and [r] the next
    draw of the generator: an event is returned exactly when [r < p], its
    confidence is [p] itself and its position the actor's, and the
    generator has advanced by that one draw either way. *)
Theorem generateSensorEvent_within_range (actor : Actor.t) (sensor : Sensor.t)
    (weather : Weather) (w : World) :
  (getDistance (Actor.pos actor) (Sensor.pos sensor) <=? Sensor.range sensor)%float = true ->
  let p := spec_probability actor sensor weather in
  let r := (PRNG.random (prng w)).1 in
  let g := (PRNG.random (prng w)).2 in
  (is_Some (generateSensorEvent actor sensor weather w).1 <-> (r <? p)%float = true)
  /\ (forall e, (generateSensorEvent actor sensor weather w).1 = Some e ->
        SensorEvent.confidence e = p
        /\ SensorEvent.actorPos e = Actor.pos actor
        /\ SensorEvent.actorId e = Actor.id actor
        /\ SensorEvent.sensorId e = Sensor.id sensor
        /\ SensorEvent.timestamp e = clock w (reads w))
  /\ prng (generateSensorEvent actor sensor weather w).2 = g.
Proof.
  intros Hnear p r g. rewrite generateSensorEvent_unfold, Hnear. cbv zeta.
  fold p r g. destruct (r <? p)%float; cbn [fst snd prng].
  - split; [split; eauto|]. split; [|reflexivity].
    intros e [= <-]. now cbn.
  - split; [split; [intros [? [=]]|discriminate]|]. split; [|reflexivity].
    intros e [=].
Qed.

(** An entry that is falsy as a number (zero or NaN) is treated as no
    entry at all. *)
Lemma generateSensorEvent_falsy_penalty (actor : Actor.t) (sensor : Sensor.t)
    (weather : Weather) (f : float) :
  Sensor.weather_penalty sensor weather = Some f -> truthy f = false ->
  spec_probability actor sensor weather
  = (let fallen := (Sensor.base_p sensor
                    * (1 - getDistance (Actor.pos actor) (Sensor.pos sensor)
                           / Sensor.range sensor))%float in
     match Actor.type actor with
     | adversary => (fallen * 0.8)%float
     | civilian => fallen
     end).
Proof.
  intros Hf Hfalsy. unfold spec_probability, penalty_applies.
  now rewrite Hf, Hfalsy.
Qed.

End DetectionModel.

Lemma generateSensorEvent_beyond_range_witness :
  (Sensor.range Ex.camera_S01
     <? getDistance (H:=series_math) (Actor.pos (Ex.walker Ex.far))
                    (Sensor.pos Ex.camera_S01))%float = true
  /\ generateSensorEvent (H:=series_math) (Ex.walker Ex.far) Ex.camera_S01 clear
                         (Ex.world 42 1000)
     = (None, Ex.world 42 1000).
Proof.
  split; [vm_compute; reflexivity|].
  apply (generateSensorEvent_beyond_range (H:=series_math)).
  vm_compute; reflexivity.
Defined.

Lemma generateSensorEvent_within_range_witness :
  let actor := Ex.intruder Ex.here in
  let w := Ex.world 42 1000 in
  let p := spec_probability (H:=series_math) actor Ex.camera_S01 fog in
  let r := (PRNG.random (prng w)).1 in
  p = (0.8 * 0.4 * 1 * 0.8)%float
  /\ (is_Some (generateSensorEvent (H:=series_math) actor Ex.camera_S01 fog w).1
      <-> (r <? p)%float = true).
Proof.
  split; [vm_compute; reflexivity|].
  apply (generateSensorEvent_within_range (H:=series_math)
           (Ex.intruder Ex.here) Ex.camera_S01 fog (Ex.world 42 1000)).
  vm_compute; reflexivity.
Defined.

(** C6.  The code at a sensor whose fog entry is the factor 0, in fog, with
    a civilian standing at the sensor: every factor applied, the
    probability would be 0 and no draw could detect; the code skips the
    zero entry, computes 0.8 and emits an event with that confidence. *)
Theorem zero_weather_penalty_is_skipped :
  let actor := Ex.walker Ex.here in
  let sensor := Ex.camera_blind_in_fog in
  let w := Ex.world 42 1000 in
  Sensor.weather_penalty sensor fog = Some 0%float
  /\ spec_probability_every_factor (H:=series_math) actor sensor fog = 0%float
  /\ (generateSensorEvent (H:=series_math) actor sensor fog w).1
     = Some (SensorEvent.mk 1000 "S09" "civ-0" 0.8 Ex.here).
Proof. vm_compute. repeat split; reflexivity. Qed.

(** ** The rule engine *)

Section RuleEngine.
Context `{MathLib}.

Implicit Types (now : Z) (adv : option Actor.t) (evs : list SensorEvent.t)
  (rule : DetectionRule.t) (st : DetectionState) (alerts : list Alert.t).

Lemma evaluateRules_nil now adv evs st :
  evaluateRules now adv evs [] st = Some ([], st).
Proof. reflexivity. Qed.

Lemma evaluateRules_one now adv evs rule st :
  evaluateRules now adv evs [rule] st = apply_rule now adv evs rule ([], st).
Proof. reflexivity. Qed.

Lemma apply_rule_unrecognized now adv evs rule (acc : list Alert.t * DetectionState) :
  recognized rule = false -> apply_rule now adv evs rule acc = Some acc.
Proof.
  unfold recognized. intros Hty%bool_decide_eq_false.
  unfold apply_rule. destruct acc as [alerts st].
  repeat case_decide; try reflexivity; exfalso; apply Hty; set_solver.
Qed.

Lemma foldl_rules_recognized now adv evs (rules : list DetectionRule.t)
    (acc : option (list Alert.t * DetectionState)) :
  foldl (fun acc rule => acc ≫= apply_rule now adv evs rule) acc rules
  = foldl (fun acc rule => acc ≫= apply_rule now adv evs rule) acc
          (List.filter recognized rules).
Proof.
  revert acc. induction rules as [|rule rules IH]; intros acc; [reflexivity|].
  cbn [foldl List.filter]. destruct (recognized rule) eqn:Hrec.
  - cbn [foldl]. apply IH.
  - rewrite <- IH. f_equal. destruct acc as [a|]; [|reflexivity].
    cbn. now apply apply_rule_unrecognized.
Qed.

(** C9.  A rule whose type is none of the three the engine knows is
    skipped: applying it raises nothing and returns the alerts and the
    rolling state unchanged, so evaluating a rule list gives what
    evaluating its recognized rules, in the order given, gives. *)
Theorem unrecognized_rules_are_skipped now adv evs :
  (forall rule acc, recognized rule = false ->
      apply_rule now adv evs rule acc = Some acc)
  /\ (forall rules st,
        evaluateRules now adv evs rules st
        = evaluateRules now adv evs (List.filter recognized rules) st).
Proof.
  split.
  - intros rule acc. apply apply_rule_unrecognized.
  - intros rules st. apply foldl_rules_recognized.
Qed.

(** *** high_confidence_sighting *)

(** The rule fires on the first event of the adversary whose confidence
    exceeds [min_confidence], and touches no state. *)
Lemma apply_rule_high_confidence now adv evs rule alerts st :
  DetectionRule.type rule = "high_confidence_sighting" ->
  apply_rule now adv evs rule (alerts, st)
  = Some (match List.find
                  (fun e => of_adversary adv e
                            && (Params.min_confidence (DetectionRule.params rule)
                                <? SensorEvent.confidence e)%float) evs with
          | Some e => (alerts ++ [hc_alert now e], st)
          | None => (alerts, st)
          end).
Proof.
  intros Hty. unfold apply_rule. rewrite Hty.
  repeat case_decide; try congruence.
  now destruct (List.find _ evs).
Qed.

(** *** persistent_sighting *)

Lemma apply_rule_persistent now adv evs rule alerts st stored :
  DetectionRule.type rule = "persistent_sighting" ->
  events_or_empty (js_get st (DetectionRule.id rule)) = Some stored ->
  let history := List.filter (in_window now rule) stored
                   ++ List.filter (of_adversary adv) evs in
  apply_rule now adv evs rule (alerts, st)
  = Some (if Params.min_detections (DetectionRule.params rule)
               <=? Z.of_nat (length history)
          then (alerts ++ [ps_alert now history],
                <[ DetectionRule.id rule := VEvents [] ]> st)
          else (alerts, <[ DetectionRule.id rule := VEvents history ]> st)).
Proof.
  intros Hty Hst history. unfold apply_rule. rewrite Hty.
  repeat case_decide; try congruence.
  rewrite Hst. cbn. fold history.
  now destruct (_ <=? _).
Qed.

(** C2.  A persistent_sighting rule keeps under its id the stored events
    still inside the window followed by this tick's adversary events.
    When that list has at least [min_detections] events the rule adds
    exactly one critical alert whose related events are the whole list
    and stores the empty list; otherwise it adds no alert and stores the
    list.  With [min_detections = 3]: three ticks of one adversary event
    each, inside the window, give no alert, no alert, then one alert on
    the three events; a fourth event right after gives no alert.  Three
    adversary events in a single tick give that one alert at once. *)
Theorem persistent_sighting_fires_then_resets adv rule :
  DetectionRule.type rule = "persistent_sighting" ->
  let key := DetectionRule.id rule in
  (forall now evs alerts st stored,
      events_or_empty (js_get st key) = Some stored ->
      let history := List.filter (in_window now rule) stored
                       ++ List.filter (of_adversary adv) evs in
      Alert.level (ps_alert now history) = critical
      /\ Alert.relatedEvents (ps_alert now history) = history
      /\ apply_rule now adv evs rule (alerts, st)
         = Some (if Params.min_detections (DetectionRule.params rule)
                      <=? Z.of_nat (length history)
                 then (alerts ++ [ps_alert now history], <[ key := VEvents [] ]> st)
                 else (alerts, <[ key := VEvents history ]> st)))
  /\ (forall st0 e1 e2 e3 e4 n1 n2 n3 n4,
        Params.min_detections (DetectionRule.params rule) = 3 ->
        js_get st0 key = None ->
        of_adversary adv e1 = true -> of_adversary adv e2 = true ->
        of_adversary adv e3 = true -> of_adversary adv e4 = true ->
        in_window n2 rule e1 = true ->
        in_window n3 rule e1 = true -> in_window n3 rule e2 = true ->
        evaluateRules n1 adv [e1] [rule] st0
          = Some ([], <[ key := VEvents [e1] ]> st0)
        /\ evaluateRules n2 adv [e2] [rule] (<[ key := VEvents [e1] ]> st0)
          = Some ([], <[ key := VEvents [e1; e2] ]> st0)
        /\ evaluateRules n3 adv [e3] [rule] (<[ key := VEvents [e1; e2] ]> st0)
          = Some ([ps_alert n3 [e1; e2; e3]], <[ key := VEvents [] ]> st0)
        /\ evaluateRules n4 adv [e4] [rule] (<[ key := VEvents [] ]> st0)
          = Some ([], <[ key := VEvents [e4] ]> st0)
        /\ evaluateRules n1 adv [e1; e2; e3] [rule] st0
          = Some ([ps_alert n1 [e1; e2; e3]], <[ key := VEvents [] ]> st0)).
Proof.
  intros Hty key. split.
  - intros now evs alerts st stored Hst history.
    split; [reflexivity|]. split; [reflexivity|].
    now apply apply_rule_persistent.
  - intros st0 e1 e2 e3 e4 n1 n2 n3 n4 Hmin Hnone A1 A2 A3 A4 W21 W31 W32.
    rewrite !evaluateRules_one.
    repeat split.
    + rewrite (apply_rule_persistent n1 adv [e1] rule [] st0 []); [|done|].
      * cbn. rewrite A1, Hmin. eval_threshold. reflexivity.
      * fold key. now rewrite Hnone.
    + rewrite (apply_rule_persistent n2 adv [e2] rule [] _ [e1]); [|done|].
      * cbn. rewrite W21, A2, Hmin. eval_threshold. fold key.
        now rewrite insert_insert_eq.
      * fold key. now rewrite js_get_insert_eq.
    + rewrite (apply_rule_persistent n3 adv [e3] rule [] _ [e1; e2]); [|done|].
      * cbn. rewrite W31, W32, A3, Hmin. eval_threshold. fold key.
        now rewrite insert_insert_eq.
      * fold key. now rewrite js_get_insert_eq.
    + rewrite (apply_rule_persistent n4 adv [e4] rule [] _ []); [|done|].
      * cbn. rewrite A4, Hmin. eval_threshold. fold key.
        now rewrite insert_insert_eq.
      * fold key. now rewrite js_get_insert_eq.
    + rewrite (apply_rule_persistent n1 adv [e1; e2; e3] rule [] st0 []); [|done|].
      * cbn. rewrite A1, A2, A3, Hmin. eval_threshold. reflexivity.
      * fold key. now rewrite Hnone.
Qed.

End RuleEngine.

(** *** group_sighting *)

Lemma cooldownKey_ne (k : string) : cooldownKey k <> k.
Proof.
  unfold cooldownKey. induction k as [|a k IH]; [discriminate|].
  cbn. intros [= Heq]. now apply IH.
Qed.

Section GroupSighting.
Context `{MathLib}.

Implicit Types (now : Z) (adv : option Actor.t) (evs : list SensorEvent.t)
  (rule : DetectionRule.t) (st : DetectionState) (alerts : list Alert.t).

Lemma elem_of_foldl_nearby rule (e : SensorEvent.t) (history : list SensorEvent.t)
    (ids : gset string) (x : string) :
  x ∈ foldl (fun ids h => if near rule e h
                          then ids ∪ {[ SensorEvent.actorId h ]} else ids)
            ids history
  <-> x ∈ ids \/ exists h, h ∈ history /\ near rule e h = true
                           /\ SensorEvent.actorId h = x.
Proof.
  revert ids. induction history as [|h history IH]; intros ids; cbn [foldl].
  - split; [auto|]. intros [Hx|(h & Hh & _)]; [exact Hx|].
    now apply elem_of_nil in Hh.
  - rewrite IH. split.
    + intros [Hx|(h' & Hh' & Hnear & Hid)].
      * destruct (near rule e h) eqn:Hn; [|left; exact Hx].
        apply elem_of_union in Hx as [Hx|Hx]; [left; exact Hx|].
        apply elem_of_singleton in Hx. right. exists h.
        split; [apply elem_of_cons; left; reflexivity|].
        split; [exact Hn|symmetry; exact Hx].
      * right. exists h'.
        split; [apply elem_of_cons; right; exact Hh'|].
        split; assumption.
    + intros [Hx|(h' & Hh' & Hnear & Hid)].
      * left. destruct (near rule e h); [|exact Hx].
        apply elem_of_union. left. exact Hx.
      * apply elem_of_cons in Hh' as [->|Hh'].
        -- left. rewrite Hnear. apply elem_of_union. right.
           apply elem_of_singleton. symmetry. exact Hid.
        -- right. exists h'. auto.
Qed.

(** The set counted for an adversary event holds the adversary's own
    identity and the identities of the events of the history that lie
    within the radius. *)
Lemma elem_of_nearbyActorIds rule (e : SensorEvent.t)
    (history : list SensorEvent.t) (x : string) :
  x ∈ nearbyActorIds rule e history
  <-> x = SensorEvent.actorId e
      \/ exists h, h ∈ history /\ near rule e h = true /\ SensorEvent.actorId h = x.
Proof.
  pose proof (elem_of_foldl_nearby rule e history
                {[ SensorEvent.actorId e ]} x) as Hfold.
  rewrite elem_of_singleton in Hfold. exact Hfold.
Qed.

Lemma group_step_unfold now rule (history : list SensorEvent.t) alerts st
    (e : SensorEvent.t) :
  group_step now rule history (alerts, st) e
  = if qualifies rule history e
         && cooldown_over now (st !! cooldownKey (DetectionRule.id rule))
    then (alerts ++ [group_alert now (size (nearbyActorIds rule e history))],
          <[ cooldownKey (DetectionRule.id rule)
             := VNum (now + Params.time_window_s (DetectionRule.params rule) * 1000) ]> st)
    else (alerts, st).
Proof.
  unfold group_step, qualifies. cbv zeta. rewrite js_get_cooldownKey.
  destruct (_ <=? _); [|reflexivity]. cbn [andb].
  now destruct (cooldown_over _ _).
Qed.

(** A cooldown just set is not over within the same tick. *)
Lemma cooldown_over_fresh now (w : Z) :
  0 < now -> 0 <= w -> cooldown_over now (Some (VNum (now + w * 1000))) = false.
Proof.
  intros Hnow Hw. cbn. apply orb_false_iff. split.
  - apply Z.eqb_neq. lia.
  - apply Z.ltb_ge. lia.
Qed.

(** The loop over this tick's adversary events fires at most once: on
    the first event whose count qualifies, if the cooldown is over. *)
Lemma foldl_group_step now rule (history l : list SensorEvent.t) alerts st :
  0 < now -> 0 <= Params.time_window_s (DetectionRule.params rule) ->
  foldl (group_step now rule history) (alerts, st) l
  = match List.find (qualifies rule history) l with
    | Some e =>
        if cooldown_over now (st !! cooldownKey (DetectionRule.id rule))
        then (alerts ++ [group_alert now (size (nearbyActorIds rule e history))],
              <[ cooldownKey (DetectionRule.id rule)
                 := VNum (now + Params.time_window_s (DetectionRule.params rule) * 1000) ]> st)
        else (alerts, st)
    | None => (alerts, st)
    end.
Proof.
  intros Hnow Hw. revert alerts st.
  induction l as [|e l IH]; intros alerts st; [reflexivity|].
  cbn [foldl List.find]. rewrite group_step_unfold.
  destruct (qualifies rule history e) eqn:Hq; cbn [andb]; [|apply IH].
  destruct (cooldown_over now (st !! _)) eqn:Hc.
  - rewrite IH, lookup_insert_eq, cooldown_over_fresh by assumption.
    now destruct (List.find _ l).
  - rewrite IH, Hc. now destruct (List.find _ l).
Qed.

Lemma apply_rule_group now adv evs rule alerts st (stored : list SensorEvent.t) :
  DetectionRule.type rule = "group_sighting" ->
  events_or_empty (js_get st (DetectionRule.id rule)) = Some stored ->
  0 < now -> 0 <= Params.time_window_s (DetectionRule.params rule) ->
  let key := cooldownKey (DetectionRule.id rule) in
  let history := List.filter (in_window now rule) (stored ++ evs) in
  let st1 := <[ DetectionRule.id rule := VEvents history ]> st in
  apply_rule now adv evs rule (alerts, st)
  = Some match List.find (qualifies rule history)
                         (List.filter (of_adversary adv) evs) with
         | Some e =>
             if cooldown_over now (st !! key)
             then (alerts ++ [group_alert now (size (nearbyActorIds rule e history))],
                   <[ key := VNum (now + Params.time_window_s (DetectionRule.params rule)
                                         * 1000) ]> st1)
             else (alerts, st1)
         | None => (alerts, st1)
         end.
Proof.
  intros Hty Hst Hnow Hw key history st1. unfold apply_rule. rewrite Hty.
  repeat case_decide; try congruence.
  rewrite Hst. cbn [mbind option_bind]. fold history st1.
  rewrite foldl_group_step by assumption. fold key.
  unfold st1 at 1. rewrite lookup_insert_ne; [reflexivity|].
  intros Heq. symmetry in Heq. now apply cooldownKey_ne in Heq.
Qed.

End GroupSighting.

Section GroupSightingClaims.
Context `{MathLib}.

(** C3 (amended).  For a group_sighting rule, at a time [now > 0] and
    with a window that is not negative: the identities counted for an
    adversary event are the adversary's own and those of the events of
    the pruned history within [radius_m] of it.  The rule adds one
    critical alert, for the first adversary event of the tick whose count
    reaches [min_actors], when the cooldown is over, and then sets the
    cooldown to [now + time_window_s * 1000]; otherwise it adds none.  The
    cooldown is over when there is no cooldown entry, or when the entry
    is a non-zero timestamp strictly below [now]: while [now <= cooldown]
    the rule adds no alert and leaves the cooldown as it is. *)
Theorem group_sighting_fires_then_cools_down (now : Z) (adv : option Actor.t)
    (rule : DetectionRule.t) :
  DetectionRule.type rule = "group_sighting" ->
  0 < now -> 0 <= Params.time_window_s (DetectionRule.params rule) ->
  let key := cooldownKey (DetectionRule.id rule) in
  let window := Params.time_window_s (DetectionRule.params rule) * 1000 in
  (forall e history x,
      x ∈ nearbyActorIds rule e history
      <-> x = SensorEvent.actorId e
          \/ exists h, h ∈ history /\ near rule e h = true
                       /\ SensorEvent.actorId h = x)
  /\ (forall n, Alert.level (group_alert now n) = critical)
  /\ (forall evs alerts (st : DetectionState) stored,
        events_or_empty (js_get st (DetectionRule.id rule)) = Some stored ->
        let history := List.filter (in_window now rule) (stored ++ evs) in
        let st1 := <[ DetectionRule.id rule := VEvents history ]> st in
        apply_rule now adv evs rule (alerts, st)
        = Some match List.find (qualifies rule history)
                               (List.filter (of_adversary adv) evs) with
               | Some e =>
                   if cooldown_over now (st !! key)
                   then (alerts ++ [group_alert now
                                      (size (nearbyActorIds rule e history))],
                         <[ key := VNum (now + window) ]> st1)
                   else (alerts, st1)
               | None => (alerts, st1)
               end)
  /\ (forall (st : DetectionState),
        (st !! key = None -> cooldown_over now (st !! key) = true)
        /\ (forall c, st !! key = Some (VNum c) -> c <> 0 ->
              (cooldown_over now (st !! key) = true <-> c < now)))
  /\ (forall evs alerts (st : DetectionState) stored c,
        events_or_empty (js_get st (DetectionRule.id rule)) = Some stored ->
        st !! key = Some (VNum c) -> c <> 0 -> now <= c ->
        exists st', apply_rule now adv evs rule (alerts, st) = Some (alerts, st')
                    /\ st' !! key = Some (VNum c)).
Proof.
  intros Hty Hnow Hw key window.
  assert (Hne : DetectionRule.id rule <> key).
  { intros Heq. symmetry in Heq. now apply cooldownKey_ne in Heq. }
  split; [intros; apply elem_of_nearbyActorIds|].
  split; [reflexivity|].
  split; [intros; now apply apply_rule_group|].
  split.
  - intros st. split; [now intros ->|].
    intros c -> Hc. cbn. rewrite orb_true_iff, Z.eqb_eq, Z.ltb_lt. intuition lia.
  - intros evs alerts st stored c Hst Hcd Hc Hle.
    rewrite (apply_rule_group now adv evs rule alerts st stored) by assumption.
    fold key. rewrite Hcd.
    assert (cooldown_over now (Some (VNum c)) = false) as ->.
    { cbn. apply orb_false_iff. split; [apply Z.eqb_neq|apply Z.ltb_ge]; lia. }
    eexists. split.
    + now destruct (List.find _ _).
    + now rewrite lookup_insert_ne.
Qed.

End GroupSightingClaims.

Lemma group_sighting_fires_then_cools_down_witness :
  let e := Ex.sighting 1000000 "adv-1" Ex.here in
  let adv := Some (Ex.intruder Ex.here) in
  apply_rule (H:=series_math) 1000000 adv [e] Ex.group_rule ([], ∅)
  = Some ([group_alert 1000000 1],
          <[ cooldownKey "group_sighting_meadow" := VNum 1010000 ]>
            (<[ "group_sighting_meadow" := VEvents [e] ]> ∅))
  /\ (forall (st : DetectionState),
        events_or_empty (js_get st "group_sighting_meadow") = Some [] ->
        st !! cooldownKey "group_sighting_meadow" = Some (VNum 1010000) ->
        exists st', apply_rule (H:=series_math) 1000000 adv [e] Ex.group_rule ([], st)
                    = Some ([], st')
                    /\ st' !! cooldownKey "group_sighting_meadow" = Some (VNum 1010000)).
Proof.
  intros e adv.
  destruct (group_sighting_fires_then_cools_down (H:=series_math)
              1000000 adv Ex.group_rule eq_refl eq_refl)
    as (_ & _ & Hfire & _ & Hquiet); [vm_compute; discriminate|].
  split.
  - rewrite (Hfire [e] [] ∅ []) by (vm_compute; reflexivity).
    vm_compute. reflexivity.
  - intros st Hst Hcd.
    apply (Hquiet [e] [] st [] 1010000 Hst Hcd); [discriminate|vm_compute; discriminate].
Defined.

(** C3, as stated, fails at the instant the cooldown expires.  A first tick
    at 1000000 fires and sets the cooldown to 1010000.  At a tick at
    1010000 exactly, the count of the adversary event reaches [min_actors]
    and the cooldown timestamp is not in the future, yet no alert is
    added. *)
Lemma group_sighting_silent_when_cooldown_expires :
  let adv := Some (Ex.intruder Ex.here) in
  let e0 := Ex.sighting 1000000 "adv-1" Ex.here in
  let e1 := Ex.sighting 1010000 "adv-1" Ex.here in
  let key := cooldownKey (DetectionRule.id Ex.group_rule) in
  let tick1 := evaluateRules (H:=series_math) 1000000 adv [e0] [Ex.group_rule] ∅ in
  let tick2 := tick1 ≫= fun '(_, st1) =>
               evaluateRules (H:=series_math) 1010000 adv [e1] [Ex.group_rule] st1 in
  fst <$> tick1 = Some [group_alert 1000000 1]
  /\ (tick1 ≫= fun '(_, st1) => st1 !! key) = Some (VNum 1010000)
  /\ qualifies (H:=series_math) Ex.group_rule
       (List.filter (in_window 1010000 Ex.group_rule) [e0; e1]) e1 = true
  /\ cooldown_in_future 1010000 (Some (VNum 1010000)) = false
  /\ fst <$> tick2 = Some [].
Proof. vm_compute. repeat split; reflexivity. Qed.

(** With [min_confidence = 0.85], a sighting of the adversary at
    confidence 0.84 gives no alert and one at 0.86 gives a critical alert. *)
Lemma high_confidence_threshold :
  let rule := DetectionRule.mk "high_confidence_sighting_v1"
                "high_confidence_sighting" (Params.mk 0.85 0 0 0 0) in
  let adv := Some (Ex.intruder Ex.here) in
  let seen c := SensorEvent.mk 1000 "S01" "adv-1" c Ex.here in
  fst <$> evaluateRules (H:=series_math) 1000 adv [seen 0.84%float] [rule] ∅ = Some []
  /\ fst <$> evaluateRules (H:=series_math) 1000 adv [seen 0.86%float] [rule] ∅
     = Some [hc_alert 1000 (seen 0.86%float)]
  /\ Alert.level (hc_alert 1000 (seen 0.86%float)) = critical.
Proof. vm_compute. repeat split; reflexivity. Qed.

(** The rolling state is one object for all rules.  When a rule's id is
    the cooldown key of a group_sighting rule, it finds a number where it
    expects its list, and the call raises. *)
Lemma cooldown_key_collision_raises :
  let squatter := DetectionRule.mk "group_sighting_meadow-cooldown"
                    "persistent_sighting" (Params.mk 0 10 3 0 0) in
  evaluateRules (H:=series_math) 1000000 (Some (Ex.intruder Ex.here))
                [Ex.sighting 1000000 "adv-1" Ex.here]
                [Ex.group_rule; squatter] ∅
  = None.
Proof. vm_compute. reflexivity. Qed.

(** *** The events an alert carries *)

(** C10.  The alerts of high_confidence_sighting and persistent_sighting
    carry the triggering event and the accumulated list; the alert of
    group_sighting carries no event.  Here a group_sighting rule fires on
    a sighting of the adversary and the alert's [relatedEvents] is empty. *)
Theorem group_sighting_alert_carries_no_events :
  (forall now e, Alert.relatedEvents (hc_alert now e) = [e])
  /\ (forall now history, Alert.relatedEvents (ps_alert now history) = history)
  /\ (forall now n, Alert.relatedEvents (group_alert now n) = [])
  /\ (let e := Ex.sighting 1000000 "adv-1" Ex.here in
      let fired := evaluateRules (H:=series_math) 1000000
                     (Some (Ex.intruder Ex.here)) [e] [Ex.group_rule] ∅ in
      fst <$> fired = Some [group_alert 1000000 1]
      /\ fmap (M:=list) Alert.level <$> (fst <$> fired) = Some [critical]
      /\ fmap (M:=list) Alert.relatedEvents <$> (fst <$> fired) = Some [ [] ]).
Proof.
  repeat split; try reflexivity; vm_compute; reflexivity.
Qed.

(** ** Determinism of [runDetectionLogic] *)

Section Determinism.
Context `{MathLib}.

Lemma agree_refl (w : World) : agree w w.
Proof. now repeat split. Qed.

(** What one call of [generateSensorEvent] does to the world: the clock
    function stays, its reads grow by the number of events returned. *)
Lemma generateSensorEvent_world (actor : Actor.t) (sensor : Sensor.t)
    (weather : Weather) (w : World) :
  let r := generateSensorEvent actor sensor weather w in
  clock r.2 = clock w
  /\ reads r.2 = (reads w + length (option_list r.1))%nat.
Proof.
  cbv zeta. rewrite generateSensorEvent_unfold.
  destruct (_ <=? _)%float; cbv zeta; [destruct (_ <? _)%float|];
    cbn; split; auto with lia.
Qed.

(** With the generator in the same state, two calls agree on everything
    but the timestamp, whatever the clocks. *)
Lemma generateSensorEvent_any_clock (actor : Actor.t) (sensor : Sensor.t)
    (weather : Weather) (w1 w2 : World) :
  prng w1 = prng w2 ->
  let r1 := generateSensorEvent actor sensor weather w1 in
  let r2 := generateSensorEvent actor sensor weather w2 in
  prng r1.2 = prng r2.2 /\ erase_time <$> r1.1 = erase_time <$> r2.1.
Proof.
  intros Hg. cbv zeta. rewrite !generateSensorEvent_unfold, Hg.
  destruct (_ <=? _)%float; cbv zeta; [destruct (_ <? _)%float|];
    cbn; auto.
Qed.

Lemma generateSensorEvent_agree (actor : Actor.t) (sensor : Sensor.t)
    (weather : Weather) (w1 w2 : World) :
  agree w1 w2 ->
  let r1 := generateSensorEvent actor sensor weather w1 in
  let r2 := generateSensorEvent actor sensor weather w2 in
  r1.1 = r2.1 /\ agree r1.2 r2.2.
Proof.
  intros (Hg & Hr & Hc). cbv zeta. rewrite !generateSensorEvent_unfold, Hg.
  destruct (_ <=? _)%float; cbv zeta; [destruct (_ <? _)%float|];
    cbn [fst snd].
  - rewrite (Hc (reads w1)), Hr by lia. split; [reflexivity|].
    repeat split; cbn; auto with lia.
  - split; [reflexivity|]. repeat split; cbn; auto.
  - split; [reflexivity|]. repeat split; auto.
Qed.

Lemma scanSensors_cons (actor : Actor.t) (sensor : Sensor.t)
    (sensors : list Sensor.t) (weather : Weather)
    (acc : list SensorEvent.t) (w : World) :
  scanSensors actor (sensor :: sensors) weather acc w
  = scanSensors actor sensors weather
      (acc ++ option_list (generateSensorEvent actor sensor weather w).1)
      (generateSensorEvent actor sensor weather w).2.
Proof.
  cbn [scanSensors]. unfold mbind, M_bind.
  destruct (generateSensorEvent actor sensor weather w) as [[e|] w'];
    cbn [fst snd option_list]; [reflexivity|now rewrite app_nil_r].
Qed.

Lemma scanActors_cons (actor : Actor.t) (actors : list Actor.t)
    (sensors : list Sensor.t) (weather : Weather)
    (acc : list SensorEvent.t) (w : World) :
  scanActors (actor :: actors) sensors weather acc w
  = scanActors actors sensors weather
      (scanSensors actor sensors weather acc w).1
      (scanSensors actor sensors weather acc w).2.
Proof.
  cbn [scanActors]. unfold mbind, M_bind.
  now destruct (scanSensors actor sensors weather acc w).
Qed.

Lemma scanSensors_any_clock (actor : Actor.t) (sensors : list Sensor.t)
    (weather : Weather) (acc1 acc2 : list SensorEvent.t) (w1 w2 : World) :
  prng w1 = prng w2 -> erase_time <$> acc1 = erase_time <$> acc2 ->
  let r1 := scanSensors actor sensors weather acc1 w1 in
  let r2 := scanSensors actor sensors weather acc2 w2 in
  prng r1.2 = prng r2.2 /\ erase_time <$> r1.1 = erase_time <$> r2.1.
Proof.
  revert acc1 acc2 w1 w2.
  induction sensors as [|sensor sensors IH]; intros acc1 acc2 w1 w2 Hg Hacc;
    [now split|].
  cbv zeta. rewrite !scanSensors_cons.
  destruct (generateSensorEvent_any_clock actor sensor weather w1 w2 Hg)
    as [Hg' He].
  apply IH; [exact Hg'|].
  rewrite !fmap_app, Hacc. f_equal.
  destruct (generateSensorEvent actor sensor weather w1).1,
           (generateSensorEvent actor sensor weather w2).1;
    cbn in He |- *; congruence.
Qed.

Lemma scanActors_any_clock (actors : list Actor.t) (sensors : list Sensor.t)
    (weather : Weather) (acc1 acc2 : list SensorEvent.t) (w1 w2 : World) :
  prng w1 = prng w2 -> erase_time <$> acc1 = erase_time <$> acc2 ->
  let r1 := scanActors actors sensors weather acc1 w1 in
  let r2 := scanActors actors sensors weather acc2 w2 in
  prng r1.2 = prng r2.2 /\ erase_time <$> r1.1 = erase_time <$> r2.1.
Proof.
  revert acc1 acc2 w1 w2.
  induction actors as [|actor actors IH]; intros acc1 acc2 w1 w2 Hg Hacc;
    [now split|].
  cbv zeta. rewrite !scanActors_cons.
  destruct (scanSensors_any_clock actor sensors weather acc1 acc2 w1 w2 Hg Hacc).
  now apply IH.
Qed.

Lemma scanSensors_agree (actor : Actor.t) (sensors : list Sensor.t)
    (weather : Weather) (acc : list SensorEvent.t) (w1 w2 : World) :
  agree w1 w2 ->
  let r1 := scanSensors actor sensors weather acc w1 in
  let r2 := scanSensors actor sensors weather acc w2 in
  r1.1 = r2.1 /\ agree r1.2 r2.2.
Proof.
  revert acc w1 w2.
  induction sensors as [|sensor sensors IH]; intros acc w1 w2 Hw; [now split|].
  cbv zeta. rewrite !scanSensors_cons.
  destruct (generateSensorEvent_agree actor sensor weather w1 w2 Hw) as [-> Hw'].
  now apply IH.
Qed.

Lemma scanActors_agree (actors : list Actor.t) (sensors : list Sensor.t)
    (weather : Weather) (acc : list SensorEvent.t) (w1 w2 : World) :
  agree w1 w2 ->
  let r1 := scanActors actors sensors weather acc w1 in
  let r2 := scanActors actors sensors weather acc w2 in
  r1.1 = r2.1 /\ agree r1.2 r2.2.
Proof.
  revert acc w1 w2.
  induction actors as [|actor actors IH]; intros acc w1 w2 Hw; [now split|].
  cbv zeta. rewrite !scanActors_cons.
  destruct (scanSensors_agree actor sensors weather acc w1 w2 Hw) as [-> Hw'].
  now apply IH.
Qed.

Lemma runDetectionLogic_unfold (actors : list Actor.t) (sensors : list Sensor.t)
    (weather : Weather) (rules : list DetectionRule.t) (st : DetectionState)
    (w : World) :
  let scan := scanActors actors sensors weather [] w in
  runDetectionLogic actors sensors weather rules st w
  = if (length scan.1 =? 0)%nat
    then (Some (mkResult [] scan.1 st), scan.2)
    else (match evaluateRules (clock scan.2 (reads scan.2))
                  (List.find is_adversary actors) scan.1 rules st with
          | Some (alerts, nextState) => Some (mkResult alerts scan.1 nextState)
          | None => None
          end,
          mkWorld (prng scan.2) (clock scan.2) (S (reads scan.2))).
Proof.
  cbv zeta. unfold runDetectionLogic, mbind, M_bind.
  destruct (scanActors actors sensors weather [] w) as [events w'].
  cbn [fst snd]. now destruct (length events =? 0)%nat.
Qed.

(** C1 (amended).  [runDetectionLogic] is a function of its arguments,
    of the state of the generator and of the readings of the wall clock
    taken during the call.  Which sensor detects which actor with what
    confidence, and the state the generator is left in, do not depend on
    the clock.  Two runs on the same arguments whose generators start in
    the same state and whose clocks give the same readings return the
    same events, alerts and rolling state (or both raise). *)
Theorem runDetectionLogic_deterministic_given_clock (actors : list Actor.t)
    (sensors : list Sensor.t) (weather : Weather)
    (rules : list DetectionRule.t) (st : DetectionState) (w1 w2 : World) :
  prng w1 = prng w2 ->
  let r1 := runDetectionLogic actors sensors weather rules st w1 in
  let r2 := runDetectionLogic actors sensors weather rules st w2 in
  prng r1.2 = prng r2.2
  /\ erase_time <$> (scanActors actors sensors weather [] w1).1
     = erase_time <$> (scanActors actors sensors weather [] w2).1
  /\ (reads w1 = reads w2 ->
      (forall n, (reads w1 <= n)%nat -> clock w1 n = clock w2 n) ->
      r1.1 = r2.1).
Proof.
  intros Hg. cbv zeta. rewrite !runDetectionLogic_unfold. cbv zeta.
  destruct (scanActors_any_clock actors sensors weather [] [] w1 w2 Hg eq_refl)
    as [Hg' He].
  assert (Hlen : length (scanActors actors sensors weather [] w1).1
                 = length (scanActors actors sensors weather [] w2).1).
  { rewrite <- (length_fmap erase_time), He. apply length_fmap. }
  split; [|split; [exact He|]].
  - rewrite Hlen. now destruct (_ =? _)%nat.
  - intros Hr Hc.
    destruct (scanActors_agree actors sensors weather [] w1 w2
                (conj Hg (conj Hr Hc))) as (Hev & _ & Hr' & Hc').
    rewrite Hev, (Hc' (reads _)), Hr' by lia.
    now destruct (_ =? _)%nat.
Qed.

End Determinism.

Lemma runDetectionLogic_deterministic_given_clock_witness :
  let w1 := Ex.world 42 1000 in
  let w2 := mkWorld (PRNG.mk 42) (fun n => 1000 + 0 * Z.of_nat n) 0 in
  (runDetectionLogic (H:=series_math) [Ex.intruder Ex.here] [Ex.camera_S01]
                     clear [Ex.persistent_rule] ∅ w1).1
  = (runDetectionLogic (H:=series_math) [Ex.intruder Ex.here] [Ex.camera_S01]
                       clear [Ex.persistent_rule] ∅ w2).1.
Proof.
  intros w1 w2.
  apply (runDetectionLogic_deterministic_given_clock (H:=series_math)
           [Ex.intruder Ex.here] [Ex.camera_S01] clear [Ex.persistent_rule] ∅
           w1 w2 eq_refl); [reflexivity|].
  intros n _. cbn. lia.
Defined.

(** C1, as stated, fails: the same arguments, the same seed and the same
    rolling state, at two different times of the wall clock, give event
    lists that differ (in the timestamp of the event). *)
Lemma runDetectionLogic_depends_on_clock :
  let w1 := Ex.world 42 1000 in
  let w2 := Ex.world 42 2000 in
  prng w1 = prng w2
  /\ (runDetectionLogic (H:=series_math) [Ex.intruder Ex.here] [Ex.camera_S01]
                        clear [] ∅ w1).1
     <> (runDetectionLogic (H:=series_math) [Ex.intruder Ex.here] [Ex.camera_S01]
                           clear [] ∅ w2).1.
Proof.
  split; [reflexivity|]. vm_compute. discriminate.
Qed.

(** ** The points of interest and the generated path *)

Lemma poi_pos_key (name : string) :
  name ∈ POINTS_OF_INTEREST.*1 ->
  (list_to_map POINTS_OF_INTEREST : gmap string Point) !! name = Some (poi_pos name).
Proof.
  intros Hin. unfold poi_pos.
  destruct (list_to_map POINTS_OF_INTEREST !! name) as [p|] eqn:Hp; [reflexivity|].
  apply not_elem_of_list_to_map in Hp. contradiction.
Qed.

Lemma getRandomPoiName_run (exclude : list string) (w : World) :
  getRandomPoiName exclude w
  = (nth (random_index (PRNG.next_u32 (prng w)).1
            (length (filter (fun name => name ∉ exclude) (POINTS_OF_INTEREST.*1))))
         (filter (fun name => name ∉ exclude) (POINTS_OF_INTEREST.*1)) "",
     mkWorld (PRNG.next_u32 (prng w)).2 (clock w) (reads w)).
Proof.
  unfold getRandomPoiName, mbind, M_bind, prng_u32.
  now destruct (PRNG.next_u32 (prng w)).
Qed.

(** The name drawn is a key of the table, for the two ways the program
    calls [getRandomPoiName]: with nothing or with one name excluded. *)
Lemma getRandomPoiName_key (exclude : list string) (w : World) :
  (length exclude <= 1)%nat ->
  (getRandomPoiName exclude w).1 ∈ POINTS_OF_INTEREST.*1.
Proof.
  intros Hex. rewrite getRandomPoiName_run. cbn [fst].
  set (names := filter (fun name => name ∉ exclude) (POINTS_OF_INTEREST.*1)).
  assert (Hne : (0 < length names)%nat).
  { assert (exists x, x ∈ names) as [x Hx].
    { destruct exclude as [|x [|y exclude]]; [| |cbn in Hex; lia].
      - exists "Parking". apply list_elem_of_filter. split; [apply not_elem_of_nil|].
        apply elem_of_cons. now left.
      - destruct (decide (x = "Parking")) as [->|Hx].
        + exists "Meadow". apply list_elem_of_filter. split.
          * intros Hin%list_elem_of_singleton. discriminate.
          * apply elem_of_cons. right. apply elem_of_cons. now left.
        + exists "Parking". apply list_elem_of_filter. split.
          * intros Hin%list_elem_of_singleton. congruence.
          * apply elem_of_cons. now left. }
    destruct names; [now apply elem_of_nil in Hx|cbn; lia]. }
  assert (Hin : nth (random_index (PRNG.next_u32 (prng w)).1 (length names)) names ""
                ∈ names).
  { apply nth_elem_of, random_index_lt; [apply next_u32_range|exact Hne]. }
  apply list_elem_of_filter in Hin. tauto.
Qed.

Lemma validatePath_nonempty (start end_ : string) (response : option (list Point)) :
  exists p, validatePath start end_ response !! 0%nat = Some p.
Proof.
  destruct response as [[|p ps]|]; cbn [validatePath]; eauto.
  apply lookup_lt_is_Some. rewrite !length_insert. cbn. lia.
Qed.

(** ** The tick loop *)

Section TickLoop.
Context `{MathLib}.

Implicit Types (a : Actor.t) (w : World) (s : SimState).

Lemma mapM_cons_run {A B} (f : A -> M B) (x : A) (l : list A) w :
  mapM f (x :: l) w
  = ((f x w).1 :: (mapM f l (f x w).2).1, (mapM f l (f x w).2).2).
Proof.
  cbn [mapM]. unfold mbind, M_bind, mret, M_ret.
  destruct (f x w) as [y w']. cbn [fst snd].
  now destruct (mapM f l w').
Qed.

Lemma Forall_mapM_run {A B} (f : A -> M B) (P : A -> Prop) (Q : B -> Prop)
    (l : list A) w :
  (forall x w', P x -> Q (f x w').1) -> Forall P l -> Forall Q (mapM f l w).1.
Proof.
  intros Hf Hl. revert w. induction Hl as [|x l Hx Hl IH]; intros w.
  - constructor.
  - rewrite mapM_cons_run. cbn [fst]. constructor; auto.
Qed.

(** In the branch of [advance] that moves an actor, the next waypoint
    exists. *)
Lemma advance_lookup a :
  (Z.of_nat (Actor.pathIndex a) >=? Z.of_nat (length (Actor.path a)) - 1) = false ->
  Actor.path a !! (Actor.pathIndex a + 1)%nat
  = Some (default undefined_pos (Actor.path a !! (Actor.pathIndex a + 1)%nat)).
Proof.
  intros Hlt. rewrite Z.geb_leb in Hlt. apply Z.leb_gt in Hlt.
  destruct (lookup_lt_is_Some_2 (Actor.path a) (Actor.pathIndex a + 1)) as [p Hp];
    [lia|]. now rewrite Hp.
Qed.

Lemma advance_adversary_run a w :
  is_adversary a = true -> advance a w = (advance_adversary a, w).
Proof.
  unfold is_adversary, advance, advance_adversary.
  destruct (Actor.type a); [|discriminate]. intros _.
  now destruct (_ >=? _).
Qed.

Lemma advance_type a w : Actor.type (advance a w).1 = Actor.type a.
Proof.
  unfold advance. destruct (_ >=? _); [|reflexivity].
  destruct a as [i ty p pa ix sp g]; cbn. destruct ty; [reflexivity|].
  unfold mbind, M_bind. now destruct (getRandomPoiName [] w).
Qed.

Lemma advance_well_placed a w : well_placed a -> well_placed (advance a w).1.
Proof.
  unfold well_placed, advance. intros Ha.
  destruct (_ >=? _) eqn:Hend.
  - destruct (Actor.type a); [exact Ha|].
    unfold mbind, M_bind. now destruct (getRandomPoiName [] w).
  - cbn. now apply advance_lookup.
Qed.

(** The adversary the tick looks up after the advance is the advanced
    adversary of before. *)
Lemma find_adversary_mapM_advance (l : list Actor.t) w :
  List.find is_adversary (mapM advance l w).1
  = advance_adversary <$> List.find is_adversary l.
Proof.
  revert w. induction l as [|a l IH]; intros w; [reflexivity|].
  rewrite mapM_cons_run. cbn [fst List.find].
  assert (Hty : is_adversary (advance a w).1 = is_adversary a).
  { unfold is_adversary. now rewrite advance_type. }
  rewrite Hty. destruct (is_adversary a) eqn:Hadv; [|apply IH].
  now rewrite advance_adversary_run.
Qed.

Lemma advance_adversary_index a :
  (Z.of_nat (Actor.pathIndex a) >=? Z.of_nat (length (Actor.path a)) - 1) = false ->
  Actor.pathIndex (advance_adversary a) = S (Actor.pathIndex a)
  /\ Actor.path (advance_adversary a) = Actor.path a.
Proof.
  intros Hlt. unfold advance_adversary. rewrite Hlt. cbn. split; [lia|reflexivity].
Qed.

Lemma advance_adversary_at_end a :
  (Z.of_nat (Actor.pathIndex a) >=? Z.of_nat (length (Actor.path a)) - 1) = true ->
  advance_adversary a = a.
Proof. intros Hend. unfold advance_adversary. now rewrite Hend. Qed.

End TickLoop.

Section TickLoopClaims.
Context `{MathLib}.

Implicit Types (a : Actor.t) (w : World) (s : SimState).

Lemma tick_unfold (sensors : list Sensor.t) (rules : list DetectionRule.t) s w :
  let moved := mapM advance (currentActors s) w in
  tick sensors rules s w
  = match List.find is_adversary moved.1 with
    | None => (Resolved BYPASSED, moved.2)
    | Some adv =>
        if Z.of_nat (Actor.pathIndex adv) >=? Z.of_nat (length (Actor.path adv)) - 1
        then (Resolved BYPASSED, moved.2)
        else
          let r := runDetectionLogic moved.1 sensors clear rules
                     (detectionState s) moved.2 in
          (match r.1 with
           | None => Running (mkSim moved.1 (detectionState s))
           | Some res =>
               if existsb is_critical (newAlerts res)
               then Resolved DETECTED
               else Running (mkSim moved.1 (updatedState res))
           end, r.2)
    end.
Proof.
  cbv zeta. unfold tick, mbind, M_bind.
  destruct (mapM advance (currentActors s) w) as [actors w']. cbn [fst snd].
  destruct (List.find is_adversary actors) as [adv|]; [|reflexivity].
  destruct (_ >=? _); [reflexivity|].
  destruct (runDetectionLogic actors sensors clear rules (detectionState s) w')
    as [[res|] w'']; cbn [fst snd]; [|reflexivity].
  now destruct (existsb is_critical (newAlerts res)).
Qed.

Lemma ticks_unfold (n : nat) (sensors : list Sensor.t)
    (rules : list DetectionRule.t) s w :
  ticks (S n) sensors rules s w
  = match (tick sensors rules s w).1 with
    | Resolved v => (Some v, (tick sensors rules s w).2)
    | Running s' => ticks n sensors rules s' (tick sensors rules s w).2
    end.
Proof.
  cbn [ticks]. unfold mbind, M_bind.
  now destruct (tick sensors rules s w) as [[v|s'] w'].
Qed.

(** What one tick does, seen from the adversary. *)
Lemma tick_outcome (sensors : list Sensor.t) (rules : list DetectionRule.t) s w a :
  List.find is_adversary (currentActors s) = Some a ->
  let a' := advance_adversary a in
  let moved := mapM advance (currentActors s) w in
  match (tick sensors rules s w).1 with
  | Resolved BYPASSED =>
      Z.of_nat (length (Actor.path a')) - 1 <= Z.of_nat (Actor.pathIndex a')
  | Resolved DETECTED =>
      Z.of_nat (Actor.pathIndex a') < Z.of_nat (length (Actor.path a')) - 1
      /\ exists res,
           (runDetectionLogic moved.1 sensors clear rules (detectionState s) moved.2).1
           = Some res
           /\ existsb is_critical (newAlerts res) = true
  | Running s' =>
      List.find is_adversary (currentActors s') = Some a'
      /\ Actor.pathIndex a' = S (Actor.pathIndex a)
      /\ Actor.path a' = Actor.path a
      /\ Z.of_nat (Actor.pathIndex a') < Z.of_nat (length (Actor.path a')) - 1
  end.
Proof.
  intros Hfind a' moved. rewrite tick_unfold. cbv zeta. fold moved.
  assert (Hfind' : List.find is_adversary moved.1 = Some a').
  { unfold moved. now rewrite find_adversary_mapM_advance, Hfind. }
  rewrite Hfind'.
  destruct (_ >=? _) eqn:Hend; cbn [fst].
  { rewrite Z.geb_leb in Hend. now apply Z.leb_le in Hend. }
  assert (Hlt : Z.of_nat (Actor.pathIndex a') < Z.of_nat (length (Actor.path a')) - 1).
  { rewrite Z.geb_leb in Hend. now apply Z.leb_gt in Hend. }
  assert (Hmoved : Actor.pathIndex a' = S (Actor.pathIndex a)
                   /\ Actor.path a' = Actor.path a).
  { destruct (Z.of_nat (Actor.pathIndex a)
              >=? Z.of_nat (length (Actor.path a)) - 1) eqn:Ha.
    - exfalso. unfold a' in Hend. rewrite (advance_adversary_at_end a Ha) in Hend.
      congruence.
    - now apply advance_adversary_index. }
  destruct (runDetectionLogic moved.1 sensors clear rules (detectionState s) moved.2).1
    as [res|] eqn:Hres.
  - destruct (existsb is_critical (newAlerts res)) eqn:Hcrit.
    + split; [exact Hlt|]. exists res. split; [reflexivity|exact Hcrit].
    + cbn [currentActors]. tauto.
  - cbn [currentActors]. tauto.
Qed.

Lemma ticks_resolve (sensors : list Sensor.t) (rules : list DetectionRule.t) (n : nat) :
  forall s w a,
    List.find is_adversary (currentActors s) = Some a ->
    (remaining a <= n)%nat ->
    exists v, (ticks (S n) sensors rules s w).1 = Some v.
Proof.
  induction n as [|n IH]; intros s w a Hfind Hrem.
  - rewrite ticks_unfold.
    pose proof (tick_outcome sensors rules s w a Hfind) as Hout. cbv zeta in Hout.
    destruct (tick sensors rules s w).1 as [v|s']; [eauto|].
    exfalso. destruct Hout as (_ & Hix & Hpath & Hlt).
    unfold remaining in Hrem. rewrite Hix, Hpath in Hlt. lia.
  - rewrite ticks_unfold.
    pose proof (tick_outcome sensors rules s w a Hfind) as Hout. cbv zeta in Hout.
    destruct (tick sensors rules s w).1 as [v|s']; [eauto|].
    destruct Hout as (Hfind' & Hix & Hpath & Hlt).
    apply (IH s' _ (advance_adversary a) Hfind').
    unfold remaining in *. rewrite Hix, Hpath. lia.
Qed.

Lemma ticks_more_fuel (sensors : list Sensor.t) (rules : list DetectionRule.t)
    (n : nat) :
  forall (m : nat) s w v,
    (ticks n sensors rules s w).1 = Some v -> (n <= m)%nat ->
    (ticks m sensors rules s w).1 = Some v.
Proof.
  induction n as [|n IH]; intros m s w v Hn Hle; [discriminate|].
  destruct m as [|m]; [lia|].
  rewrite ticks_unfold in Hn |- *.
  destruct (tick sensors rules s w).1 as [v'|s']; [exact Hn|].
  apply IH; [exact Hn|lia].
Qed.

(** One tick, case by case. *)
Lemma tick_cases (sensors : list Sensor.t) (rules : list DetectionRule.t) s w a :
  List.find is_adversary (currentActors s) = Some a ->
  let a' := advance_adversary a in
  let moved := mapM advance (currentActors s) w in
  let det := (runDetectionLogic moved.1 sensors clear rules
                                (detectionState s) moved.2).1 in
  let at_end :=
    Z.of_nat (length (Actor.path a')) - 1 <= Z.of_nat (Actor.pathIndex a') in
  let critical :=
    exists res, det = Some res /\ existsb is_critical (newAlerts res) = true in
  ((tick sensors rules s w).1 = Resolved BYPASSED <-> at_end)
  /\ ((tick sensors rules s w).1 = Resolved DETECTED <-> ~ at_end /\ critical)
  /\ (forall s',
        (tick sensors rules s w).1 = Running s'
        <-> ~ at_end /\ ~ critical
            /\ s' = mkSim moved.1 match det with
                                  | Some res => updatedState res
                                  | None => detectionState s
                                  end)
  /\ (~ at_end ->
      List.find is_adversary moved.1 = Some a'
      /\ Actor.pathIndex a' = S (Actor.pathIndex a)
      /\ Actor.path a' = Actor.path a).
Proof.
  intros Hfind a' moved det at_end critical.
  assert (Hfind' : List.find is_adversary moved.1 = Some a').
  { unfold moved. now rewrite find_adversary_mapM_advance, Hfind. }
  pose proof (tick_unfold sensors rules s w) as Htick. cbv zeta in Htick.
  fold moved in Htick. rewrite Hfind' in Htick. fold a' in Htick.
  apply (f_equal fst) in Htick. cbn [fst] in Htick. fold det in Htick.
  destruct (Z.of_nat (Actor.pathIndex a')
            >=? Z.of_nat (length (Actor.path a')) - 1) eqn:Hend.
  - assert (Hat : at_end).
    { unfold at_end. rewrite Z.geb_leb in Hend. now apply Z.leb_le in Hend. }
    cbn [fst] in Htick. rewrite Htick.
    split; [tauto|]. split; [split; [discriminate|tauto]|].
    split; [|tauto]. intros s'. split; [discriminate|tauto].
  - assert (Hnot : ~ at_end).
    { unfold at_end. rewrite Z.geb_leb in Hend. apply Z.leb_gt in Hend. lia. }
    assert (Hmoved : Actor.pathIndex a' = S (Actor.pathIndex a)
                     /\ Actor.path a' = Actor.path a).
    { destruct (Z.of_nat (Actor.pathIndex a)
                >=? Z.of_nat (length (Actor.path a)) - 1) eqn:Ha.
      - exfalso. unfold a' in Hend. rewrite (advance_adversary_at_end a Ha) in Hend.
        congruence.
      - now apply advance_adversary_index. }
    cbn [fst] in Htick. rewrite Htick. clear Htick.
    split; [|split; [|split; [|tauto]]].
    + split; [|tauto]. destruct det as [res|]; [|discriminate].
      destruct (existsb is_critical (newAlerts res)); discriminate.
    + split.
      * intros Hdet. split; [exact Hnot|]. unfold critical.
        destruct det as [res|]; [|discriminate]. exists res. split; [reflexivity|].
        destruct (existsb is_critical (newAlerts res)); [reflexivity|discriminate].
      * intros [_ (res & -> & ->)]. reflexivity.
    + intros s'. split.
      * intros Hrun. split; [exact Hnot|]. unfold critical.
        destruct det as [res|].
        -- destruct (existsb is_critical (newAlerts res)) eqn:Hcrit; [discriminate|].
           split; [|congruence]. intros (res' & [= <-] & Hc). congruence.
        -- split; [|congruence]. intros (res' & [=] & _).
      * intros (_ & Hno & ->). unfold critical in Hno.
        destruct det as [res|]; [|reflexivity].
        destruct (existsb is_critical (newAlerts res)) eqn:Hcrit; [|reflexivity].
        exfalso. apply Hno. now exists res.
Qed.

(** From a state with an adversary the interval resolves, and the ticks
    up to there are those of the trace. *)
Lemma ticks_trace (sensors : list Sensor.t) (rules : list DetectionRule.t) (n : nat) :
  forall s w a,
    List.find is_adversary (currentActors s) = Some a ->
    (remaining a <= S n)%nat ->
    exists (k : nat) v,
      (k <= n)%nat
      /\ resolves_after sensors rules k s w v
      /\ forall m : nat, (ticks m sensors rules s w).1
                         = if (k <? m)%nat then Some v else None.
Proof.
  induction n as [|n IH]; intros s w a Hfind Hrem;
    pose proof (tick_outcome sensors rules s w a Hfind) as Hout; cbv zeta in Hout;
    destruct (tick sensors rules s w).1 as [v|s'] eqn:Htick.
  - exists 0%nat, v. split; [lia|]. split; [now constructor|].
    intros [|m]; [reflexivity|]. now rewrite ticks_unfold, Htick.
  - exfalso. destruct Hout as (_ & Hix & Hpath & Hlt).
    unfold remaining in Hrem. rewrite Hix, Hpath in Hlt. lia.
  - exists 0%nat, v. split; [lia|]. split; [now constructor|].
    intros [|m]; [reflexivity|]. now rewrite ticks_unfold, Htick.
  - destruct Hout as (Hfind' & Hix & Hpath & Hlt).
    destruct (IH s' (tick sensors rules s w).2 _ Hfind') as (k & v & Hk & Hres & Hticks).
    { unfold remaining in *. rewrite Hix, Hpath. lia. }
    exists (S k), v. split; [lia|]. split; [now apply resolves_later with s'|].
    intros [|m]; [reflexivity|]. rewrite ticks_unfold, Htick. apply Hticks.
Qed.

(** C7.  A run whose actors include an adversary resolves, once.  There
    is a number [k], below the number of waypoints the adversary has left
    (or 0 when it has none left), such that the first [k] ticks leave the
    run going and tick [k + 1] resolves it with a verdict [v]: observed
    for [m] ticks the loop has no verdict when [m <= k] and the verdict [v]
    when [m > k], so it has never both verdicts and does not go on for
    ever.  Each tick advances the actors and then: resolves BYPASSED
    exactly when the advanced adversary is at or past the last index of
    its path; resolves DETECTED exactly when it is not and the detection
    of the tick returns an alert of level critical; and otherwise
    continues, with the advanced actors and the state the detection
    returned (the old state when it raised), the adversary's [pathIndex]
    one higher on the same path. *)
Theorem tick_loop_resolves_in_one_verdict (sensors : list Sensor.t)
    (rules : list DetectionRule.t) s w a :
  List.find is_adversary (currentActors s) = Some a ->
  (exists (k : nat) v,
      (k < Nat.max 1 (remaining a))%nat
      /\ resolves_after sensors rules k s w v
      /\ forall m : nat, (ticks m sensors rules s w).1
                         = if (k <? m)%nat then Some v else None)
  /\ (let a' := advance_adversary a in
      let moved := mapM advance (currentActors s) w in
      let det := (runDetectionLogic moved.1 sensors clear rules
                                    (detectionState s) moved.2).1 in
      let at_end :=
        Z.of_nat (length (Actor.path a')) - 1 <= Z.of_nat (Actor.pathIndex a') in
      let critical :=
        exists res, det = Some res /\ existsb is_critical (newAlerts res) = true in
      ((tick sensors rules s w).1 = Resolved BYPASSED <-> at_end)
      /\ ((tick sensors rules s w).1 = Resolved DETECTED <-> ~ at_end /\ critical)
      /\ (forall s',
            (tick sensors rules s w).1 = Running s'
            <-> ~ at_end /\ ~ critical
                /\ s' = mkSim moved.1 match det with
                                      | Some res => updatedState res
                                      | None => detectionState s
                                      end)
      /\ (~ at_end ->
          List.find is_adversary moved.1 = Some a'
          /\ Actor.pathIndex a' = S (Actor.pathIndex a)
          /\ Actor.path a' = Actor.path a)).
Proof.
  intros Hfind. split; [|now apply tick_cases].
  destruct (ticks_trace sensors rules (Nat.pred (Nat.max 1 (remaining a))) s w a Hfind)
    as (k & v & Hk & Hres & Hticks); [lia|].
  exists k, v. split; [lia|]. split; [exact Hres|exact Hticks].
Qed.

(** C8.  Every actor stands on its path.  This holds for each civilian and
    for the adversary as [handleStartScenario] creates them; one call of
    [advance] preserves it, both when it moves the actor to the next
    waypoint and when it gives a civilian at the end of its path a fresh
    path of two points with [pathIndex] 0; so it holds of all actors after
    the advance step of every tick. *)
Theorem actors_stay_on_their_path :
  (forall i w, well_placed (mkCivilian i w).1)
  /\ (forall response gps,
        well_placed (mkAdversary (validatePath "Parking" "Meadow" response) gps))
  /\ (forall response gps w, Forall well_placed (initialActors response gps w).1)
  /\ (forall a w, well_placed a -> well_placed (advance a w).1)
  /\ (forall a w,
        Actor.type a = civilian ->
        Z.of_nat (length (Actor.path a)) - 1 <= Z.of_nat (Actor.pathIndex a) ->
        let a' := (advance a w).1 in
        Actor.pathIndex a' = 0%nat /\ length (Actor.path a') = 2%nat
        /\ Actor.path a' !! 0%nat = Some (Actor.pos a')
        /\ Actor.pos a' = Actor.pos a)
  /\ (forall a w,
        Z.of_nat (Actor.pathIndex a) < Z.of_nat (length (Actor.path a)) - 1 ->
        let a' := (advance a w).1 in
        Actor.pathIndex a' = S (Actor.pathIndex a) /\ Actor.path a' = Actor.path a
        /\ Actor.path a' !! Actor.pathIndex a' = Some (Actor.pos a'))
  /\ (forall (actors : list Actor.t) w,
        Forall well_placed actors -> Forall well_placed (mapM advance actors w).1)
  /\ (forall sensors rules s w s',
        Forall well_placed (currentActors s) ->
        (tick sensors rules s w).1 = Running s' ->
        Forall well_placed (currentActors s')).
Proof.
  assert (Hciv : forall i w, well_placed (mkCivilian i w).1).
  { intros i w. unfold mkCivilian, mbind, M_bind.
    destruct (getRandomPoiName [] w) as [startPoi w1].
    now destruct (getRandomPoiName [startPoi] w1). }
  assert (Hadv : forall response gps,
             well_placed (mkAdversary (validatePath "Parking" "Meadow" response) gps)).
  { intros response gps. unfold well_placed, mkAdversary. cbn.
    destruct (validatePath_nonempty "Parking" "Meadow" response) as [p Hp].
    now rewrite Hp. }
  assert (Hall : forall (actors : list Actor.t) w,
             Forall well_placed actors -> Forall well_placed (mapM advance actors w).1).
  { intros actors w. apply Forall_mapM_run. intros x w' Hx.
    now apply advance_well_placed. }
  split; [exact Hciv|]. split; [exact Hadv|]. split; [|split; [|split; [|split; [|split]]]].
  - intros response gps w. unfold initialActors, mbind, M_bind.
    destruct (mkCivilians w) as [civilians w'] eqn:Hcivs. cbn [fst].
    constructor; [apply Hadv|].
    change civilians with (civilians, w').1. rewrite <- Hcivs.
    unfold mkCivilians.
    apply (Forall_mapM_run mkCivilian (fun _ => True) well_placed);
      [intros; apply Hciv|]. now apply Forall_forall.
  - intros a w. apply advance_well_placed.
  - intros a w Hty Hlast. cbv zeta. unfold advance.
    destruct (_ >=? _) eqn:Hend;
      [|rewrite Z.geb_leb in Hend; apply Z.leb_gt in Hend; lia].
    rewrite Hty. unfold mbind, M_bind. now destruct (getRandomPoiName [] w).
  - intros a w Hlt. cbv zeta. unfold advance.
    destruct (_ >=? _) eqn:Hend;
      [rewrite Z.geb_leb in Hend; apply Z.leb_le in Hend; lia|].
    cbn. split; [lia|]. split; [reflexivity|].
    now apply advance_lookup.
  - exact Hall.
  - intros sensors rules s w s' Hs Htick.
    rewrite tick_unfold in Htick. cbv zeta in Htick.
    specialize (Hall (currentActors s) w Hs).
    destruct (List.find is_adversary _) as [adv|]; [|discriminate].
    destruct (_ >=? _); [discriminate|]. cbn [fst] in Htick.
    destruct (runDetectionLogic _ _ _ _ _ _).1 as [res|].
    + destruct (existsb _ _); [discriminate|]. now injection Htick as <-.
    + now injection Htick as <-.
Qed.

End TickLoopClaims.

Lemma tick_loop_resolves_in_one_verdict_witness :
  let actors := [Ex.intruder Ex.here; Ex.walker Ex.far] in
  let w := Ex.world 42 1000 in
  (runSimulationPromise (H:=series_math) 1 actors [Ex.camera_S01] [Ex.hc_rule] w).1
  = Some DETECTED
  /\ (let moved := mapM advance actors w in
      exists res,
        (runDetectionLogic (H:=series_math) moved.1 [Ex.camera_S01] clear
                           [Ex.hc_rule] ∅ moved.2).1 = Some res
        /\ existsb is_critical (newAlerts res) = true)
  /\ forall m : nat,
       (ticks (H:=series_math) m [Ex.camera_S01] [Ex.hc_rule] (mkSim actors ∅) w).1
       = if (0 <? m)%nat then Some DETECTED else None.
Proof.
  intros actors w.
  assert (Hrun : (runSimulationPromise (H:=series_math) 1 actors [Ex.camera_S01]
                                       [Ex.hc_rule] w).1 = Some DETECTED)
    by (vm_compute; reflexivity).
  destruct (tick_loop_resolves_in_one_verdict (H:=series_math)
              [Ex.camera_S01] [Ex.hc_rule] (mkSim actors ∅) w
              (Ex.intruder Ex.here) eq_refl) as [(k & v & _ & _ & Hticks) [_ [Hdet _]]].
  split; [exact Hrun|].
  assert (Hk : k = 0%nat).
  { pose proof (Hticks 1%nat) as H1. unfold runSimulationPromise in Hrun.
    rewrite Hrun in H1. destruct k; [reflexivity|discriminate]. }
  assert (Hv : v = DETECTED).
  { pose proof (Hticks 1%nat) as H1. unfold runSimulationPromise in Hrun.
    rewrite Hrun, Hk in H1. now injection H1. }
  split; [|now rewrite <- Hk, <- Hv].
  apply (proj1 Hdet). vm_compute. reflexivity.
Defined.

Lemma actors_stay_on_their_path_witness :
  let created := initialActors None gps_off (Ex.world 42 1000) in
  Forall well_placed created.1
  /\ Forall well_placed (mapM advance created.1 created.2).1.
Proof.
  intros created.
  destruct (actors_stay_on_their_path (H:=series_math))
    as (_ & _ & Hinit & _ & _ & _ & Hall & _).
  split; [apply Hinit|apply Hall, Hinit].
Defined.

Lemma unrecognized_rules_are_skipped_witness :
  let e := Ex.sighting 1000 "adv-1" Ex.here in
  let adv := Some (Ex.intruder Ex.here) in
  recognized Ex.future_rule = false
  /\ apply_rule (H:=series_math) 1000 adv [e] Ex.future_rule ([], ∅) = Some ([], ∅)
  /\ evaluateRules (H:=series_math) 1000 adv [e]
       [Ex.future_rule; Ex.persistent_rule; Ex.future_rule] ∅
     = evaluateRules (H:=series_math) 1000 adv [e] [Ex.persistent_rule] ∅.
Proof.
  intros e adv.
  destruct (unrecognized_rules_are_skipped (H:=series_math) 1000 adv [e])
    as [Hskip Hfilter].
  split; [vm_compute; reflexivity|]. split.
  - apply Hskip. vm_compute; reflexivity.
  - apply Hfilter.
Defined.

Lemma persistent_sighting_fires_then_resets_witness :
  let adv := Some (Ex.intruder Ex.here) in
  let key := "persistent_sighting_v1" in
  let e1 := Ex.sighting 1000 "adv-1" Ex.here in
  let e2 := Ex.sighting 2000 "adv-1" Ex.here in
  let e3 := Ex.sighting 3000 "adv-1" Ex.here in
  let e4 := Ex.sighting 4000 "adv-1" Ex.here in
  evaluateRules (H:=series_math) 1000 adv [e1] [Ex.persistent_rule] ∅
    = Some ([], <[ key := VEvents [e1] ]> ∅)
  /\ evaluateRules (H:=series_math) 2000 adv [e2] [Ex.persistent_rule]
       (<[ key := VEvents [e1] ]> ∅)
    = Some ([], <[ key := VEvents [e1; e2] ]> ∅)
  /\ evaluateRules (H:=series_math) 3000 adv [e3] [Ex.persistent_rule]
       (<[ key := VEvents [e1; e2] ]> ∅)
    = Some ([ps_alert 3000 [e1; e2; e3]], <[ key := VEvents [] ]> ∅)
  /\ evaluateRules (H:=series_math) 4000 adv [e4] [Ex.persistent_rule]
       (<[ key := VEvents [] ]> ∅)
    = Some ([], <[ key := VEvents [e4] ]> ∅)
  /\ evaluateRules (H:=series_math) 1000 adv [e1; e2; e3] [Ex.persistent_rule] ∅
    = Some ([ps_alert 1000 [e1; e2; e3]], <[ key := VEvents [] ]> ∅).
Proof.
  intros adv key e1 e2 e3 e4.
  destruct (persistent_sighting_fires_then_resets (H:=series_math)
              adv Ex.persistent_rule eq_refl) as [_ Hrun].
  apply (Hrun ∅ e1 e2 e3 e4 1000 2000 3000 4000);
    vm_compute; reflexivity.
Defined.

(** * Further properties *)

(** ** The generator *)

Lemma ToInt32_congr (x k : Z) : PRNG.ToInt32 (x + k * 2 ^ 32) = PRNG.ToInt32 x.
Proof.
  unfold PRNG.ToInt32.
  replace (x + k * 2 ^ 32 + 2 ^ 31) with (x + 2 ^ 31 + k * 2 ^ 32) by ring.
  now rewrite Z.mod_add by lia.
Qed.

Lemma ToUint32_congr (x k : Z) : PRNG.ToUint32 (x + k * 2 ^ 32) = PRNG.ToUint32 x.
Proof. unfold PRNG.ToUint32. now rewrite Z.mod_add by lia. Qed.

Lemma next_u32_congr (s k : Z) :
  (PRNG.next_u32 (PRNG.mk (s + k * 2 ^ 32))).1 = (PRNG.next_u32 (PRNG.mk s)).1.
Proof.
  unfold PRNG.next_u32, PRNG.xor, PRNG.or, PRNG.ushr. cbn [PRNG.seed fst].
  replace (s + k * 2 ^ 32 + 1831565813) with (s + 1831565813 + k * 2 ^ 32) by ring.
  now rewrite !ToInt32_congr, !ToUint32_congr.
Qed.

Lemma draws_S (n : nat) (g : PRNG.t) :
  draws (S n) g
  = ((PRNG.next_u32 g).1 :: (draws n (PRNG.next_u32 g).2).1,
     (draws n (PRNG.next_u32 g).2).2).
Proof.
  cbn [draws]. destruct (PRNG.next_u32 g) as [u g']. cbn [fst snd].
  now destruct (draws n g').
Qed.

Lemma draws_congr (n : nat) (s k : Z) :
  let run1 := draws n (PRNG.mk s) in
  let run2 := draws n (PRNG.mk (s + k * 2 ^ 32)) in
  run1.1 = run2.1
  /\ length run1.1 = n
  /\ Forall (fun u => 0 <= u < 2 ^ 32) run1.1
  /\ PRNG.seed run1.2 = s + Z.of_nat n * seed_step
  /\ PRNG.seed run2.2 = s + k * 2 ^ 32 + Z.of_nat n * seed_step.
Proof.
  revert s. induction n as [|n IH]; intros s.
  - cbn. repeat split; [constructor|lia|lia].
  - cbv zeta. rewrite !draws_S. cbn [fst snd].
    change (PRNG.next_u32 (PRNG.mk (s + k * 2 ^ 32))).2
      with (PRNG.mk (s + k * 2 ^ 32 + seed_step)).
    change (PRNG.next_u32 (PRNG.mk s)).2 with (PRNG.mk (s + seed_step)).
    replace (s + k * 2 ^ 32 + seed_step) with (s + seed_step + k * 2 ^ 32) by ring.
    destruct (IH (s + seed_step)) as (Heq & Hlen & Hrange & Hs1 & Hs2).
    rewrite next_u32_congr, Heq, Hs1, Hs2. cbn [length].
    rewrite <- Heq, Hlen.
    repeat split; try lia.
    constructor; [apply next_u32_range|exact Hrange].
Qed.

(** X1.  The stream of a generator is decided by its seed modulo 2^32, although
    the seed itself is never reduced: [n] draws from two seeds that differ
    by a multiple of 2^32, both exact over the [n] draws, are the same [n]
    numbers, each below 2^32, and each generator's seed has grown by [n]
    times the increment. *)
Theorem draws_depend_on_seed_mod_2_32 (n : nat) (s k : Z) :
  stays_exact s n -> stays_exact (s + k * 2 ^ 32) n ->
  let run1 := draws n (PRNG.mk s) in
  let run2 := draws n (PRNG.mk (s + k * 2 ^ 32)) in
  run1.1 = run2.1
  /\ length run1.1 = n
  /\ Forall (fun u => 0 <= u < 2 ^ 32) run1.1
  /\ PRNG.seed run1.2 = s + Z.of_nat n * seed_step
  /\ PRNG.seed run2.2 = s + k * 2 ^ 32 + Z.of_nat n * seed_step.
Proof. intros _ _. apply draws_congr. Qed.

Lemma draws_depend_on_seed_mod_2_32_witness :
  (draws 5 (PRNG.mk 42)).1 = (draws 5 (PRNG.mk (42 - 7 * 2 ^ 32))).1
  /\ PRNG.seed (draws 5 (PRNG.mk 42)).2 = 42 + 5 * seed_step.
Proof.
  assert (H1 : stays_exact 42 5) by (unfold stays_exact, seed_step; lia).
  assert (H2 : stays_exact (42 + -7 * 2 ^ 32) 5) by (unfold stays_exact, seed_step; lia).
  destruct (draws_depend_on_seed_mod_2_32 5 42 (-7) H1 H2) as (Heq & _ & _ & Hseed & _).
  split; [exact Heq|exact Hseed].
Defined.

(** ** The scan of actors and sensors *)

Lemma World_eq (w1 w2 : World) :
  PRNG.seed (prng w1) = PRNG.seed (prng w2) -> clock w1 = clock w2 ->
  reads w1 = reads w2 -> w1 = w2.
Proof.
  destruct w1 as [[s1] c1 r1], w2 as [[s2] c2 r2]. cbn. now intros -> -> ->.
Qed.

Section Scan.
Context `{MathLib}.

Implicit Types (actor : Actor.t) (sensor : Sensor.t) (weather : Weather)
  (w : World) (acc : list SensorEvent.t).

Lemma generateSensorEvent_cases actor sensor weather w :
  let r := generateSensorEvent actor sensor weather w in
  let w1 := mkWorld (PRNG.random (prng w)).2 (clock w) in
  (in_range actor sensor = false /\ r = (None, w))
  \/ (in_range actor sensor = true /\ r = (None, w1 (reads w)))
  \/ (in_range actor sensor = true
      /\ exists e, r = (Some e, w1 (S (reads w)))
                   /\ event_of weather actor sensor e
                   /\ SensorEvent.timestamp e = clock w (reads w)).
Proof.
  cbv zeta. rewrite generateSensorEvent_unfold. fold (in_range actor sensor).
  destruct (in_range actor sensor) eqn:Hin; [|now left]. right. cbv zeta.
  destruct (_ <? _)%float; [right|now left].
  split; [reflexivity|]. eexists. split; [reflexivity|].
  now repeat split.
Qed.

Lemma scanSensors_spec actor (sensors : list Sensor.t) weather acc w :
  let r := scanSensors actor sensors weather acc w in
  exists new,
    r.1 = acc ++ new
    /\ Forall (fun e => exists sensor,
                 sensor ∈ sensors /\ event_of weather actor sensor e) new
    /\ SensorEvent.timestamp <$> new = clock w <$> seq (reads w) (length new)
    /\ (length new <= length (List.filter (in_range actor) sensors))%nat
    /\ PRNG.seed (prng r.2)
       = PRNG.seed (prng w)
         + Z.of_nat (length (List.filter (in_range actor) sensors)) * seed_step
    /\ reads r.2 = (reads w + length new)%nat
    /\ clock r.2 = clock w.
Proof.
  revert acc w. induction sensors as [|sensor sensors IH]; intros acc w.
  - exists []. cbn. rewrite app_nil_r. repeat split; auto with lia.
  - cbv zeta. rewrite scanSensors_cons. cbn [List.filter].
    assert (Hlater : forall new : list SensorEvent.t,
               Forall (fun e => exists s, s ∈ sensors /\ event_of weather actor s e) new ->
               Forall (fun e => exists s, s ∈ sensor :: sensors
                                          /\ event_of weather actor s e) new).
    { intros new Hnew. eapply Forall_impl; [exact Hnew|]. intros e (s & Hs & He).
      exists s. split; [apply elem_of_cons; now right|exact He]. }
    destruct (generateSensorEvent_cases actor sensor weather w)
      as [[Hin ->]|[[Hin ->]|[Hin (e & -> & He & Hte)]]];
      rewrite Hin; cbn [fst snd option_list].
    + rewrite app_nil_r.
      destruct (IH acc w)
        as (new & Hnew & Hfrom & Hts & Hlen & Hseed & Hreads & Hclock).
      exists new. split; [exact Hnew|]. split; [auto|tauto].
    + rewrite app_nil_r.
      match goal with
      | |- context [scanSensors _ _ _ acc ?w1] =>
          destruct (IH acc w1)
            as (new & Hnew & Hfrom & Hts & Hlen & Hseed & Hreads & Hclock)
      end.
      exists new. cbn [length prng reads clock] in *.
      split; [exact Hnew|]. split; [auto|].
      split; [exact Hts|]. split; [lia|]. split; [|split; [lia|exact Hclock]].
      rewrite Hseed. change (PRNG.seed (PRNG.random (prng w)).2)
        with (PRNG.seed (prng w) + seed_step). lia.
    + change (option_list (Some e)) with [e].
      match goal with
      | |- context [scanSensors _ _ _ (acc ++ [e]) ?w1] =>
          destruct (IH (acc ++ [e]) w1)
            as (new & Hnew & Hfrom & Hts & Hlen & Hseed & Hreads & Hclock)
      end.
      exists (e :: new). rewrite Hnew, <- app_assoc.
      cbn [app length prng reads clock] in *.
      split; [reflexivity|]. split.
      { constructor; [|auto].
        exists sensor. split; [apply elem_of_cons; now left|exact He]. }
      split; [cbn; now rewrite Hts, Hte|].
      split; [lia|]. split; [|split; [lia|exact Hclock]].
      rewrite Hseed. change (PRNG.seed (PRNG.random (prng w)).2)
        with (PRNG.seed (prng w) + seed_step). lia.
Qed.

Lemma pairs_in_range_cons actor (actors : list Actor.t) (sensors : list Sensor.t) :
  length (pairs_in_range (actor :: actors) sensors)
  = (length (List.filter (in_range actor) sensors)
     + length (pairs_in_range actors sensors))%nat.
Proof.
  unfold pairs_in_range. cbn [list_prod].
  rewrite List.filter_app, length_app. f_equal.
  induction sensors as [|s sensors IH]; [reflexivity|].
  cbn [map List.filter]. destruct (in_range actor s); cbn [length]; congruence.
Qed.

Lemma scanActors_spec (actors : list Actor.t) (sensors : list Sensor.t) weather acc w :
  let r := scanActors actors sensors weather acc w in
  exists new,
    r.1 = acc ++ new
    /\ Forall (fun e => exists actor sensor,
                 actor ∈ actors /\ sensor ∈ sensors
                 /\ event_of weather actor sensor e) new
    /\ SensorEvent.timestamp <$> new = clock w <$> seq (reads w) (length new)
    /\ (length new <= length (pairs_in_range actors sensors))%nat
    /\ PRNG.seed (prng r.2)
       = PRNG.seed (prng w)
         + Z.of_nat (length (pairs_in_range actors sensors)) * seed_step
    /\ reads r.2 = (reads w + length new)%nat
    /\ clock r.2 = clock w.
Proof.
  revert acc w. induction actors as [|actor actors IH]; intros acc w.
  - exists []. cbn. rewrite app_nil_r. repeat split; auto with lia.
  - cbv zeta. rewrite scanActors_cons, pairs_in_range_cons.
    destruct (scanSensors_spec actor sensors weather acc w)
      as (new1 & Hnew1 & Hfrom1 & Hts1 & Hlen1 & Hseed1 & Hreads1 & Hclock1).
    destruct (IH (scanSensors actor sensors weather acc w).1
                 (scanSensors actor sensors weather acc w).2)
      as (new2 & Hnew2 & Hfrom2 & Hts2 & Hlen2 & Hseed2 & Hreads2 & Hclock2).
    exists (new1 ++ new2).
    split; [now rewrite Hnew2, Hnew1, app_assoc|]. split.
    { apply Forall_app. split.
      - eapply Forall_impl; [exact Hfrom1|]. intros e (s & Hs & He).
        exists actor, s. split; [apply elem_of_cons; now left|tauto].
      - eapply Forall_impl; [exact Hfrom2|]. intros e (a & s & Ha & Hs & He).
        exists a, s. split; [apply elem_of_cons; now right|tauto]. }
    split.
    { rewrite fmap_app, length_app, seq_app, fmap_app, Hts1, Hts2.
      now rewrite Hclock1, Hreads1. }
    rewrite length_app. split; [lia|]. split; [|split; [lia|congruence]].
    rewrite Hseed2, Hseed1. lia.
Qed.

End Scan.

Section DetectionRun.
Context `{MathLib}.

Implicit Types (actors : list Actor.t) (sensors : list Sensor.t)
  (weather : Weather) (rules : list DetectionRule.t) (st : DetectionState)
  (w : World).

(** X2.  When no actor is within range of any sensor, [runDetectionLogic]
    returns no events and no alerts, hands back the rolling state it was
    given and leaves the world untouched: it takes no draw from the
    generator and does not read the clock. *)
Theorem runDetectionLogic_nobody_in_range actors sensors weather rules st w :
  pairs_in_range actors sensors = [] ->
  runDetectionLogic actors sensors weather rules st w
  = (Some (mkResult [] [] st), w).
Proof.
  intros Hnone. rewrite runDetectionLogic_unfold. cbv zeta.
  destruct (scanActors_spec actors sensors weather [] w)
    as (new & Hnew & _ & _ & Hlen & Hseed & Hreads & Hclock).
  rewrite Hnone in Hlen, Hseed. cbn in Hlen, Hseed, Hnew.
  destruct new; [|cbn in Hlen; lia].
  rewrite Hnew. cbn [length Nat.eqb]. f_equal.
  apply World_eq; [lia|exact Hclock|cbn in Hreads; lia].
Qed.

(** X3.  One call of [runDetectionLogic] takes exactly one draw for every
    (actor, sensor) pair in range, detected or not, and none for the
    others; it reads the clock once per event and once more for [now] when
    there is an event; this holds also when a rule raises. *)
Theorem runDetectionLogic_draws_and_reads actors sensors weather rules st w :
  let events := (scanActors actors sensors weather [] w).1 in
  let w' := (runDetectionLogic actors sensors weather rules st w).2 in
  PRNG.seed (prng w')
  = PRNG.seed (prng w) + Z.of_nat (length (pairs_in_range actors sensors)) * seed_step
  /\ reads w' = (reads w + length events + (if events is [] then 0 else 1))%nat
  /\ clock w' = clock w
  /\ (length events <= length (pairs_in_range actors sensors))%nat
  /\ (length (pairs_in_range actors sensors) <= length actors * length sensors)%nat.
Proof.
  cbv zeta. rewrite runDetectionLogic_unfold. cbv zeta.
  destruct (scanActors_spec actors sensors weather [] w)
    as (new & Hnew & _ & _ & Hlen & Hseed & Hreads & Hclock).
  cbn [app] in Hnew. rewrite Hnew.
  assert (Hprod : (length (pairs_in_range actors sensors)
                   <= length actors * length sensors)%nat).
  { unfold pairs_in_range. rewrite <- length_prod. apply List.filter_length_le. }
  destruct new as [|e new]; cbn [length Nat.eqb snd prng reads clock] in *.
  - repeat split; auto with lia.
  - repeat split; auto with lia.
Qed.

(** X4.  Every event returned records a detection of one of the actors by one
    of the sensors that has it in range, with the actor's position and the
    computed probability as confidence; the events carry, in order, the
    readings the clock gave during the scan. *)
Theorem runDetectionLogic_events_come_from_pairs actors sensors weather rules st w res :
  (runDetectionLogic actors sensors weather rules st w).1 = Some res ->
  Forall (fun e => exists actor sensor,
            actor ∈ actors /\ sensor ∈ sensors /\ event_of weather actor sensor e)
         (newEvents res)
  /\ SensorEvent.timestamp <$> newEvents res
     = clock w <$> seq (reads w) (length (newEvents res)).
Proof.
  rewrite runDetectionLogic_unfold. cbv zeta.
  destruct (scanActors_spec actors sensors weather [] w)
    as (new & Hnew & Hfrom & Hts & _).
  cbn [app] in Hnew. rewrite Hnew.
  destruct (length new =? 0)%nat; cbn [fst].
  - intros [= <-]. now split.
  - destruct (evaluateRules _ _ _ _ _) as [[alerts st']|]; [|discriminate].
    intros [= <-]. now split.
Qed.

End DetectionRun.

Lemma runDetectionLogic_nobody_in_range_witness :
  runDetectionLogic (H:=series_math) [Ex.walker Ex.far; Ex.intruder Ex.far]
                    [Ex.camera_S01] fog [Ex.hc_rule; Ex.group_rule] ∅
                    (Ex.world 42 1000)
  = (Some (mkResult [] [] ∅), Ex.world 42 1000).
Proof.
  apply (runDetectionLogic_nobody_in_range (H:=series_math)).
  vm_compute. reflexivity.
Defined.

Lemma runDetectionLogic_events_come_from_pairs_witness :
  let w := Ex.world 42 1000 in
  let actors := [Ex.intruder Ex.here; Ex.walker Ex.far] in
  let e := SensorEvent.mk 1000 "S01" "adv-1" (0.8 * 1 * 0.8)%float Ex.here in
  (runDetectionLogic (H:=series_math) actors [Ex.camera_S01] clear [] ∅ w).1
  = Some (mkResult [] [e] ∅)
  /\ Forall (fun e => exists actor sensor,
               actor ∈ actors /\ sensor ∈ [Ex.camera_S01]
               /\ event_of (H:=series_math) clear actor sensor e) [e].
Proof.
  intros w actors e.
  assert (Hrun : (runDetectionLogic (H:=series_math) actors [Ex.camera_S01]
                                    clear [] ∅ w).1 = Some (mkResult [] [e] ∅))
    by (vm_compute; reflexivity).
  split; [exact Hrun|].
  exact (proj1 (runDetectionLogic_events_come_from_pairs (H:=series_math)
                  actors [Ex.camera_S01] clear [] ∅ w _ Hrun)).
Defined.

(** ** The rule engine, rule by rule *)

Section RuleFootprint.
Context `{MathLib}.

Implicit Types (now : Z) (adv : option Actor.t) (evs : list SensorEvent.t)
  (rule : DetectionRule.t) (rules : list DetectionRule.t)
  (st : DetectionState) (alerts : list Alert.t).

Lemma apply_rule_cases now adv evs rule alerts st :
  (DetectionRule.type rule = "high_confidence_sighting"
   /\ apply_rule now adv evs rule (alerts, st)
      = Some (match List.find
                      (fun e => of_adversary adv e
                                && (Params.min_confidence (DetectionRule.params rule)
                                    <? SensorEvent.confidence e)%float) evs with
              | Some e => (alerts ++ [hc_alert now e], st)
              | None => (alerts, st)
              end))
  \/ (DetectionRule.type rule = "persistent_sighting"
      /\ apply_rule now adv evs rule (alerts, st)
         = (stored ← events_or_empty (js_get st (DetectionRule.id rule));
            let history := List.filter (in_window now rule) stored
                             ++ List.filter (of_adversary adv) evs in
            Some (if Params.min_detections (DetectionRule.params rule)
                       <=? Z.of_nat (length history)
                  then (alerts ++ [ps_alert now history],
                        <[ DetectionRule.id rule := VEvents [] ]> st)
                  else (alerts, <[ DetectionRule.id rule := VEvents history ]> st))))
  \/ (DetectionRule.type rule = "group_sighting"
      /\ apply_rule now adv evs rule (alerts, st)
         = (stored ← events_or_empty (js_get st (DetectionRule.id rule));
            let history := List.filter (in_window now rule) (stored ++ evs) in
            Some (foldl (group_step now rule history)
                        (alerts, <[ DetectionRule.id rule := VEvents history ]> st)
                        (List.filter (of_adversary adv) evs))))
  \/ (recognized rule = false
      /\ apply_rule now adv evs rule (alerts, st) = Some (alerts, st)).
Proof.
  destruct (decide (DetectionRule.type rule = "high_confidence_sighting")) as [Hhc|Hhc].
  { left. split; [exact Hhc|]. now apply apply_rule_high_confidence. }
  destruct (decide (DetectionRule.type rule = "persistent_sighting")) as [Hps|Hps].
  { right; left. split; [exact Hps|]. unfold apply_rule. rewrite Hps.
    repeat case_decide; try congruence.
    destruct (events_or_empty _); cbn; [|reflexivity]. now destruct (_ <=? _). }
  destruct (decide (DetectionRule.type rule = "group_sighting")) as [Hgs|Hgs].
  { right; right; left. split; [exact Hgs|]. unfold apply_rule. rewrite Hgs.
    repeat case_decide; congruence. }
  right; right; right.
  assert (Hrec : recognized rule = false).
  { apply bool_decide_eq_false. rewrite !elem_of_cons, elem_of_nil. tauto. }
  split; [exact Hrec|]. now apply apply_rule_unrecognized.
Qed.

(** What the loop of a group_sighting rule leaves behind: its alerts are
    group alerts, and it writes under the cooldown key only, a number. *)
Lemma foldl_group_step_footprint now rule (history l : list SensorEvent.t) alerts st :
  let r := foldl (group_step now rule history) (alerts, st) l in
  let key := cooldownKey (DetectionRule.id rule) in
  (exists new, r.1 = alerts ++ new /\ Forall (alert_of now) new)
  /\ (forall k, k <> key -> r.2 !! k = st !! k)
  /\ (r.2 !! key = st !! key \/ exists c, r.2 !! key = Some (VNum c)).
Proof.
  revert alerts st. induction l as [|e l IH]; intros alerts st; cbv zeta.
  - cbn. split; [exists []; now rewrite app_nil_r|]. split; [reflexivity|now left].
  - cbn [foldl]. rewrite group_step_unfold.
    destruct (_ && _).
    + match goal with
      | |- context [foldl _ (?alerts1, ?st1) l] =>
          destruct (IH alerts1 st1) as ((new & Hnew & Hok) & Hframe & Hkey)
      end.
      split; [|split].
      * eexists (_ :: new). rewrite Hnew, <- app_assoc. split; [reflexivity|].
        constructor; [|exact Hok].
        split; [reflexivity|]. split; [reflexivity|].
        cbn. rewrite !elem_of_cons. tauto.
      * intros k Hk. rewrite Hframe by exact Hk. now rewrite lookup_insert_ne.
      * right. destruct Hkey as [-> | Hc]; [|exact Hc].
        rewrite lookup_insert_eq. eauto.
    + apply IH.
Qed.

(** One rule: the alerts it adds are critical and stamped [now]; it
    leaves every key of the rolling state alone but its own id and its
    cooldown key; under its id a stateful rule leaves a list. *)
Lemma apply_rule_footprint now adv evs rule alerts st alerts' (st' : DetectionState) :
  apply_rule now adv evs rule (alerts, st) = Some (alerts', st') ->
  (exists new, alerts' = alerts ++ new /\ Forall (alert_of now) new)
  /\ (forall k, k <> DetectionRule.id rule ->
                k <> cooldownKey (DetectionRule.id rule) -> st' !! k = st !! k)
  /\ (~ stateful rule -> st' = st)
  /\ (stateful rule -> exists l, st' !! DetectionRule.id rule = Some (VEvents l))
  /\ (DetectionRule.type rule <> "group_sighting" ->
      forall k, k <> DetectionRule.id rule -> st' !! k = st !! k).
Proof.
  assert (Hone : forall a, alert_of now a ->
             exists new, alerts ++ [a] = alerts ++ new /\ Forall (alert_of now) new).
  { intros a Ha. exists [a]. split; [reflexivity|]. now constructor. }
  assert (Hnone : exists new, alerts = alerts ++ new /\ Forall (alert_of now) new).
  { exists []. now rewrite app_nil_r. }
  destruct (apply_rule_cases now adv evs rule alerts st)
    as [[Hty ->]|[[Hty ->]|[[Hty ->]|[Hrec ->]]]].
  - assert (Hns : ~ stateful rule) by (intros [?|?]; congruence).
    destruct (List.find _ evs) as [e|]; intros [= <- <-].
    + split; [apply Hone|tauto].
      split; [reflexivity|]. split; [reflexivity|]. cbn. rewrite !elem_of_cons. tauto.
    + tauto.
  - destruct (events_or_empty _) as [stored|]; [|discriminate]. cbn.
    destruct (_ <=? _); intros [= <- <-].
    + split; [apply Hone|].
      { split; [reflexivity|]. split; [reflexivity|]. cbn. rewrite !elem_of_cons. tauto. }
      split; [intros k Hk _; now rewrite lookup_insert_ne|].
      split; [intros Hns; exfalso; apply Hns; now left|].
      split; [intros _; rewrite lookup_insert_eq; eauto|].
      intros _ k Hk. now rewrite lookup_insert_ne.
    + split; [exact Hnone|].
      split; [intros k Hk _; now rewrite lookup_insert_ne|].
      split; [intros Hns; exfalso; apply Hns; now left|].
      split; [intros _; rewrite lookup_insert_eq; eauto|].
      intros _ k Hk. now rewrite lookup_insert_ne.
  - destruct (events_or_empty _) as [stored|]; [|discriminate]. cbn.
    match goal with
    | |- Some (foldl _ (alerts, ?st1) ?l) = _ -> _ =>
        pose proof (foldl_group_step_footprint now rule
                      (List.filter (in_window now rule) (stored ++ evs)) l alerts st1)
          as Hfold; cbv zeta in Hfold;
        destruct (foldl (group_step now rule
                           (List.filter (in_window now rule) (stored ++ evs)))
                        (alerts, st1) l) as [alerts2 st2]
    end.
    cbn [fst snd] in Hfold. destruct Hfold as (Hal & Hframe & _).
    intros [= <- <-].
    split; [exact Hal|].
    split; [intros k Hk Hk'; rewrite Hframe by exact Hk'; now rewrite lookup_insert_ne|].
    split; [intros Hns; exfalso; apply Hns; now right|].
    split; [|congruence].
    intros _. rewrite Hframe, lookup_insert_eq; [eauto|].
    intros Heq. symmetry in Heq. now apply cooldownKey_ne in Heq.
  - assert (Hns : ~ stateful rule).
    { apply bool_decide_eq_false in Hrec. intros [Hty|Hty]; apply Hrec;
        rewrite Hty, !elem_of_cons; tauto. }
    intros [= <- <-]. tauto.
Qed.

Lemma foldl_rules_None now adv evs rules :
  foldl (fun acc rule => acc ≫= apply_rule now adv evs rule) None rules = None.
Proof. induction rules as [|rule rules IH]; [reflexivity|exact IH]. Qed.

End RuleFootprint.

Section RuleEngineProperties.
Context `{MathLib}.

Implicit Types (now : Z) (adv : option Actor.t) (evs : list SensorEvent.t)
  (rule : DetectionRule.t) (rules : list DetectionRule.t)
  (st : DetectionState) (alerts : list Alert.t).

Lemma foldl_rules_alerts now adv evs rules :
  forall alerts st alerts' (st' : DetectionState),
    foldl (fun acc rule => acc ≫= apply_rule now adv evs rule)
          (Some (alerts, st)) rules = Some (alerts', st') ->
    exists new, alerts' = alerts ++ new /\ Forall (alert_of now) new.
Proof.
  induction rules as [|rule rules IH]; intros alerts st alerts' st' Hrun.
  - injection Hrun as <- <-. exists []. now rewrite app_nil_r.
  - cbn [foldl mbind option_bind] in Hrun.
    destruct (apply_rule now adv evs rule (alerts, st)) as [[alerts1 st1]|] eqn:Hstep;
      [|now rewrite foldl_rules_None in Hrun].
    destruct (apply_rule_footprint _ _ _ _ _ _ _ _ Hstep) as ((new1 & -> & Hok1) & _).
    destruct (IH _ _ _ _ Hrun) as (new2 & -> & Hok2).
    exists (new1 ++ new2). rewrite app_assoc. split; [reflexivity|].
    now apply Forall_app.
Qed.

(** X5.  Every alert [runDetectionLogic] returns is critical and stamped with
    the clock reading taken right after the scan; its id is built from the
    rule kind and that reading alone.  So in the tick loop the test for a
    critical alert succeeds exactly when there is an alert at all. *)
Theorem runDetectionLogic_alerts_are_critical (actors : list Actor.t)
    (sensors : list Sensor.t) (weather : Weather) rules st (w : World)
    (res : DetectionResult) :
  (runDetectionLogic actors sensors weather rules st w).1 = Some res ->
  Forall (alert_of (clock w (reads w + length (newEvents res))%nat)) (newAlerts res)
  /\ (existsb is_critical (newAlerts res) = true <-> newAlerts res <> []).
Proof.
  intros Hrun.
  assert (Hall : Forall (alert_of (clock w (reads w + length (newEvents res))%nat))
                        (newAlerts res)).
  { rewrite runDetectionLogic_unfold in Hrun. cbv zeta in Hrun.
    destruct (scanActors_spec actors sensors weather [] w)
      as (new & Hnew & _ & _ & _ & _ & Hreads & Hclock).
    cbn [app] in Hnew. rewrite Hnew, Hreads, Hclock in Hrun.
    destruct (length new =? 0)%nat; cbn [fst] in Hrun.
    - injection Hrun as <-. constructor.
    - destruct (evaluateRules _ _ _ _ _) as [[alerts st']|] eqn:Heval; [|discriminate].
      injection Hrun as <-. cbn [newAlerts newEvents].
      destruct (foldl_rules_alerts _ _ _ _ _ _ _ _ Heval) as (new' & -> & Hok).
      exact Hok. }
  split; [exact Hall|].
  destruct (newAlerts res) as [|a alerts]; [cbn; split; [discriminate|congruence]|].
  split; [discriminate|]. intros _. cbn [existsb].
  apply Forall_cons in Hall as [(Hlevel & _) _].
  unfold is_critical. now rewrite Hlevel.
Qed.

(** X6.  A call of the rule engine that returns leaves alone every key of the
    rolling state that is neither the id of a persistent_sighting or
    group_sighting rule of the list nor the cooldown key of one of its
    group_sighting rules. *)
Theorem evaluateRules_touches_only_its_keys now adv evs rules st alerts
    (st' : DetectionState) (k : string) :
  evaluateRules now adv evs rules st = Some (alerts, st') ->
  (forall rule, rule ∈ rules -> stateful rule ->
     k <> DetectionRule.id rule
     /\ (DetectionRule.type rule = "group_sighting" ->
         k <> cooldownKey (DetectionRule.id rule))) ->
  st' !! k = st !! k.
Proof.
  unfold evaluateRules. generalize (@nil Alert.t) as alerts0.
  revert st. induction rules as [|rule rules IH]; intros st alerts0 Hrun Hk.
  - now injection Hrun as _ <-.
  - cbn [foldl mbind option_bind] in Hrun.
    destruct (apply_rule now adv evs rule (alerts0, st)) as [[alerts1 st1]|] eqn:Hstep;
      [|now rewrite foldl_rules_None in Hrun].
    rewrite (IH st1 alerts1 Hrun)
      by (intros r Hr; apply Hk, elem_of_cons; now right).
    destruct (apply_rule_footprint _ _ _ _ _ _ _ _ Hstep)
      as (_ & Hframe & Hpure & _ & Hnogroup).
    destruct (decide (DetectionRule.type rule = "persistent_sighting")) as [Hps|Hps].
    { destruct (Hk rule) as [Hid _]; [apply elem_of_cons; now left|now left|].
      apply Hnogroup; [congruence|exact Hid]. }
    destruct (decide (DetectionRule.type rule = "group_sighting")) as [Hgs|Hgs].
    { destruct (Hk rule) as [Hid Hcd]; [apply elem_of_cons; now left|now right|].
      apply Hframe; auto. }
    rewrite Hpure; [reflexivity|]. intros [?|?]; contradiction.
Qed.

Lemma apply_rule_keeps_lists now adv evs rules rule alerts st :
  rule ∈ rules -> keys_apart rules -> lists_under rules st ->
  exists alerts' st',
    apply_rule now adv evs rule (alerts, st) = Some (alerts', st')
    /\ lists_under rules st'.
Proof.
  intros Hin Hapart Hlists.
  assert (Hsome : is_Some (apply_rule now adv evs rule (alerts, st))).
  { destruct (apply_rule_cases now adv evs rule alerts st)
      as [[Hty ->]|[[Hty ->]|[[Hty ->]|[Hrec ->]]]]; eauto.
    - destruct (Hlists rule Hin) as [stored ->]; [now left|]. cbn. eauto.
    - destruct (Hlists rule Hin) as [stored ->]; [now right|]. cbn. eauto. }
  destruct Hsome as [[alerts' st'] Hstep]. exists alerts', st'.
  split; [exact Hstep|].
  destruct (apply_rule_footprint _ _ _ _ _ _ _ _ Hstep)
    as (_ & Hframe & Hpure & Hown & Hnogroup).
  intros r Hr Hstateful.
  destruct (decide (DetectionRule.id r = DetectionRule.id rule)) as [Heq|Hne].
  { destruct (decide (stateful rule)) as [Hs|Hs].
    - destruct (Hown Hs) as [l Hl]. rewrite Heq, (js_get_own _ _ _ Hl). cbn. eauto.
    - rewrite (Hpure Hs). now apply Hlists. }
  rewrite (js_get_ext st st' (DetectionRule.id r)); [now apply Hlists|].
  destruct (decide (DetectionRule.type rule = "group_sighting")) as [Hgs|Hgs].
  - apply Hframe; [exact Hne|]. now apply Hapart.
  - apply Hnogroup; [exact Hgs|exact Hne].
Qed.

(** On the empty state the reads under the ids of the stateful rules give
    nothing, except under an id that is a property name of
    [Object.prototype]. *)
Lemma lists_under_empty rules :
  lists_under rules ∅
  <-> forall r, r ∈ rules -> stateful r -> inherited (DetectionRule.id r) = false.
Proof.
  unfold lists_under, js_get. split; intros Hall r Hr Hs; specialize (Hall r Hr Hs).
  - rewrite lookup_empty in Hall.
    destruct (inherited (DetectionRule.id r)); [|reflexivity].
    destruct Hall as [l Hl]. discriminate.
  - rewrite lookup_empty, Hall. cbn. eauto.
Qed.

Lemma evaluateRules_keeps_lists now adv evs rules st :
  keys_apart rules -> lists_under rules st ->
  exists alerts st',
    evaluateRules now adv evs rules st = Some (alerts, st')
    /\ lists_under rules st'.
Proof.
  intros Hapart. unfold evaluateRules. generalize (@nil Alert.t) as alerts0.
  assert (Hsub : forall r, r ∈ rules -> r ∈ rules) by auto.
  revert Hsub st. generalize rules at 1 4 as todo.
  induction todo as [|rule todo IH]; intros Hsub st alerts0 Hlists.
  - exists alerts0, st. now split.
  - cbn [foldl mbind option_bind].
    destruct (apply_rule_keeps_lists now adv evs rules rule alerts0 st)
      as (alerts1 & st1 & -> & Hlists1);
      [apply Hsub, elem_of_cons; now left|exact Hapart|exact Hlists|].
    apply IH; [|exact Hlists1].
    intros r Hr. apply Hsub, elem_of_cons. now right.
Qed.

(** X7.  The engine raises only on what it reads under the id of a
    persistent_sighting or group_sighting rule.  When no such rule of the
    list is named like the cooldown key of one of its group_sighting
    rules, and the read of the state under the id of each such rule gives
    a list, zero or nothing, the call returns, and the state it returns is
    again of that form: no later call with these rules raises.  The empty
    state a run starts with is of that form exactly when none of these
    rules is named like a property of [Object.prototype]. *)
Theorem evaluateRules_never_raises_with_keys_apart now adv evs rules st :
  keys_apart rules ->
  (lists_under rules st ->
   exists alerts st',
     evaluateRules now adv evs rules st = Some (alerts, st')
     /\ lists_under rules st')
  /\ (lists_under rules ∅
      <-> forall r, r ∈ rules -> stateful r ->
                    inherited (DetectionRule.id r) = false).
Proof.
  intros Hapart. split; [|apply lists_under_empty].
  intros Hlists. now apply evaluateRules_keeps_lists.
Qed.

Lemma startRules_not_stateful rules rule :
  rule ∈ startRules rules -> rule ∈ rules /\ ~ stateful rule.
Proof.
  unfold startRules. rewrite list_elem_of_In, List.filter_In, <- list_elem_of_In.
  intros [Hin Hty]. split; [exact Hin|].
  apply andb_true_iff in Hty as [Hps Hgs].
  apply negb_true_iff, bool_decide_eq_false in Hps, Hgs.
  intros [?|?]; contradiction.
Qed.

(** X8.  The rules a run starts with hold no persistent_sighting and no
    group_sighting rule, so on them the engine never raises and returns the
    rolling state it was given, with at most one alert per rule. *)
Theorem startRules_leave_the_state_alone now adv evs rules st :
  exists alerts,
    evaluateRules now adv evs (startRules rules) st = Some (alerts, st)
    /\ (length alerts <= length (startRules rules))%nat.
Proof.
  unfold evaluateRules.
  assert (Hgen : forall todo alerts0,
             (forall r, r ∈ todo -> ~ stateful r) ->
             exists new,
               foldl (fun acc rule => acc ≫= apply_rule now adv evs rule)
                     (Some (alerts0, st)) todo = Some (alerts0 ++ new, st)
               /\ (length new <= length todo)%nat).
  { induction todo as [|rule todo IH]; intros alerts0 Hns.
    - exists []. rewrite app_nil_r. now split.
    - cbn [foldl mbind option_bind].
      assert (Hrule : ~ stateful rule) by (apply Hns, elem_of_cons; now left).
      destruct (apply_rule_cases now adv evs rule alerts0 st)
        as [[Hty ->]|[[Hty _]|[[Hty _]|[Hrec ->]]]].
      + destruct (List.find _ evs) as [e|].
        * destruct (IH (alerts0 ++ [hc_alert now e])) as (new & -> & Hlen).
          { intros r Hr. apply Hns, elem_of_cons. now right. }
          exists (hc_alert now e :: new). rewrite <- app_assoc.
          split; [reflexivity|cbn; lia].
        * destruct (IH alerts0) as (new & -> & Hlen).
          { intros r Hr. apply Hns, elem_of_cons. now right. }
          exists new. split; [reflexivity|cbn; lia].
      + exfalso. apply Hrule. now left.
      + exfalso. apply Hrule. now right.
      + destruct (IH alerts0) as (new & -> & Hlen).
        { intros r Hr. apply Hns, elem_of_cons. now right. }
        exists new. split; [reflexivity|cbn; lia]. }
  destruct (Hgen (startRules rules) []) as (new & Hrun & Hlen).
  { intros r Hr. now apply startRules_not_stateful in Hr. }
  exists new. now split.
Qed.

(** X9.  What a stateful rule leaves under its id.  Every stored event is
    inside the rule's window at [now], or, for a persistent_sighting rule,
    an adversary event of this tick; and the list a persistent_sighting
    rule stores is empty or shorter than [min_detections]. *)
Theorem stateful_rule_stores_a_pruned_list now adv evs rule alerts st alerts'
    (st' : DetectionState) :
  stateful rule ->
  apply_rule now adv evs rule (alerts, st) = Some (alerts', st') ->
  exists l,
    st' !! DetectionRule.id rule = Some (VEvents l)
    /\ Forall (fun e => in_window now rule e = true
                        \/ (DetectionRule.type rule = "persistent_sighting"
                            /\ e ∈ evs /\ of_adversary adv e = true)) l
    /\ (DetectionRule.type rule = "persistent_sighting" ->
        l = [] \/ Z.of_nat (length l) < Params.min_detections (DetectionRule.params rule)).
Proof.
  intros Hstateful.
  destruct (apply_rule_cases now adv evs rule alerts st)
    as [[Hty ->]|[[Hty ->]|[[Hty ->]|[Hrec ->]]]].
  - destruct Hstateful; congruence.
  - destruct (events_or_empty _) as [stored|]; [|discriminate]. cbn.
    destruct (_ <=? _) eqn:Hmin; intros [= <- <-]; rewrite lookup_insert_eq.
    + exists []. split; [reflexivity|]. split; [constructor|]. now left.
    + eexists. split; [reflexivity|]. split.
      * apply Forall_app. split; apply Forall_forall; intros e He;
          apply list_elem_of_In, List.filter_In in He as [He Hp].
        -- now left.
        -- right. split; [exact Hty|]. split; [now apply list_elem_of_In|exact Hp].
      * intros _. right. now apply Z.leb_gt in Hmin.
  - destruct (events_or_empty _) as [stored|]; [|discriminate]. cbn.
    match goal with
    | |- Some (foldl _ (alerts, ?st1) ?l) = _ -> _ =>
        pose proof (foldl_group_step_footprint now rule
                      (List.filter (in_window now rule) (stored ++ evs)) l alerts st1)
          as Hfold; cbv zeta in Hfold;
        destruct (foldl (group_step now rule
                           (List.filter (in_window now rule) (stored ++ evs)))
                        (alerts, st1) l) as [alerts2 st2]
    end.
    cbn [fst snd] in Hfold. destruct Hfold as (_ & Hframe & _).
    intros [= <- <-]. eexists. split.
    + rewrite Hframe, lookup_insert_eq; [reflexivity|].
      intros Heq. symmetry in Heq. now apply cooldownKey_ne in Heq.
    + split; [|congruence]. apply Forall_forall. intros e He.
      apply list_elem_of_In, List.filter_In in He as [_ Hp]. now left.
  - exfalso. apply bool_decide_eq_false in Hrec. apply Hrec.
    destruct Hstateful as [-> | ->]; rewrite !elem_of_cons; tauto.
Qed.

End RuleEngineProperties.

(** ** Actor creation *)

Lemma getRandomPoiName_pick (exclude : list string) (w : World) :
  (exists name, name ∈ POINTS_OF_INTEREST.*1 /\ name ∉ exclude) ->
  let r := getRandomPoiName exclude w in
  r.1 ∈ (POINTS_OF_INTEREST.*1) /\ (r.1 ∉ exclude)
  /\ PRNG.seed (prng r.2) = PRNG.seed (prng w) + seed_step
  /\ clock r.2 = clock w /\ reads r.2 = reads w.
Proof.
  intros (name & Hkey & Hex). cbv zeta. rewrite getRandomPoiName_run. cbn [fst snd].
  set (names := filter (fun name => name ∉ exclude) (POINTS_OF_INTEREST.*1)).
  assert (Hne : (0 < length names)%nat).
  { assert (Hin : name ∈ names) by (apply list_elem_of_filter; now split).
    destruct names; [now apply elem_of_nil in Hin|cbn; lia]. }
  assert (Hin : nth (random_index (PRNG.next_u32 (prng w)).1 (length names)) names ""
                ∈ names).
  { apply nth_elem_of, random_index_lt; [apply next_u32_range|exact Hne]. }
  apply list_elem_of_filter in Hin as [Hnot Hkey'].
  repeat split; assumption || reflexivity.
Qed.

(** X10.  Whatever names are excluded, as long as one point of interest is left
    the name drawn is a point of interest that is not excluded, and one
    number was drawn for it. *)
Theorem getRandomPoiName_avoids_excluded (exclude : list string) (w : World) :
  (exists name, name ∈ POINTS_OF_INTEREST.*1 /\ name ∉ exclude) ->
  let r := getRandomPoiName exclude w in
  r.1 ∈ (POINTS_OF_INTEREST.*1) /\ (r.1 ∉ exclude)
  /\ PRNG.seed (prng r.2) = PRNG.seed (prng w) + seed_step
  /\ clock r.2 = clock w /\ reads r.2 = reads w.
Proof. apply getRandomPoiName_pick. Qed.

Lemma getRandomPoiName_avoids_excluded_witness :
  let r := getRandomPoiName ["Parking"; "Cafe"; "Nowhere"] (Ex.world 42 1000) in
  r.1 ∈ (POINTS_OF_INTEREST.*1) /\ r.1 ∉ ["Parking"; "Cafe"; "Nowhere"].
Proof.
  cbv zeta.
  destruct (getRandomPoiName_avoids_excluded ["Parking"; "Cafe"; "Nowhere"]
              (Ex.world 42 1000)) as (Hkey & Hnot & _).
  - exists "Meadow". split; decide_by_compute.
  - now split.
Defined.

(** Two points of interest with different names lie at different
    places. *)
Lemma poi_pos_inj (s e : string) :
  s ∈ POINTS_OF_INTEREST.*1 -> e ∈ POINTS_OF_INTEREST.*1 -> s <> e ->
  poi_pos s <> poi_pos e.
Proof.
  intros Hs He Hne Heq.
  assert (Hlat : forall p q : Point,
             p = q -> (PrimFloat.Leibniz.eqb p.1 q.1 && PrimFloat.Leibniz.eqb p.2 q.2)
                      = true).
  { intros p q ->. apply andb_true_iff. split; now apply FloatAxioms.Leibniz.eqb_spec. }
  apply Hlat in Heq. clear Hlat.
  cbn in Hs, He. rewrite !elem_of_cons, elem_of_nil in Hs, He.
  repeat match goal with H : _ \/ _ |- _ => destruct H as [H|H] end;
    try contradiction; subst; try congruence;
    vm_compute in Heq; discriminate.
Qed.

Lemma mkCivilian_run (i : nat) (w : World) :
  let s := getRandomPoiName [] w in
  let e := getRandomPoiName [s.1] s.2 in
  mkCivilian i w
  = (Actor.mk ("civ-" +:+ pretty i) civilian (poi_pos s.1)
              [poi_pos s.1; poi_pos e.1] 0 10 gps_on, e.2).
Proof.
  cbv zeta. unfold mkCivilian, mbind, M_bind.
  destruct (getRandomPoiName [] w) as [s w1]. cbn [fst snd].
  now destruct (getRandomPoiName [s] w1).
Qed.

Lemma mkCivilian_id_type_seed (i : nat) (w : World) :
  Actor.id (mkCivilian i w).1 = "civ-" +:+ pretty i
  /\ Actor.type (mkCivilian i w).1 = civilian
  /\ PRNG.seed (prng (mkCivilian i w).2) = PRNG.seed (prng w) + 2 * seed_step.
Proof.
  rewrite mkCivilian_run. cbv zeta. cbn [fst snd Actor.id Actor.type].
  rewrite !getRandomPoiName_run. cbn. repeat split. unfold seed_step. lia.
Qed.

(** X11.  A civilian is created standing at a point of interest, with a path of
    two waypoints from there to a different point of interest; creating
    it takes two draws. *)
Theorem mkCivilian_goes_somewhere_else (i : nat) (w : World) :
  let c := (mkCivilian i w).1 in
  exists s e,
    s ∈ POINTS_OF_INTEREST.*1 /\ e ∈ POINTS_OF_INTEREST.*1 /\ s <> e
    /\ Actor.path c = [poi_pos s; poi_pos e]
    /\ poi_pos s <> poi_pos e
    /\ Actor.pos c = poi_pos s /\ Actor.pathIndex c = 0%nat
    /\ Actor.type c = civilian
    /\ PRNG.seed (prng (mkCivilian i w).2) = PRNG.seed (prng w) + 2 * seed_step.
Proof.
  cbv zeta. rewrite mkCivilian_run. cbv zeta. cbn [fst snd].
  destruct (getRandomPoiName_pick [] w) as (Hs & _ & Hseed1 & _).
  { exists "Parking". split; [decide_by_compute|apply not_elem_of_nil]. }
  set (s := (getRandomPoiName [] w).1) in *.
  destruct (getRandomPoiName_pick [s] (getRandomPoiName [] w).2)
    as (He & Hnot & Hseed2 & _).
  { destruct (decide (s = "Parking")) as [->|Hp].
    - exists "Meadow". split; [decide_by_compute|].
      intros Hin%list_elem_of_singleton. discriminate.
    - exists "Parking". split; [decide_by_compute|].
      intros Hin%list_elem_of_singleton. congruence. }
  set (e := (getRandomPoiName [s] (getRandomPoiName [] w).2).1) in *.
  assert (Hne : s <> e).
  { intros Heq. apply Hnot. rewrite <- Heq. now apply list_elem_of_singleton. }
  exists s, e. repeat split; auto.
  - now apply poi_pos_inj.
  - cbn. lia.
Qed.

Lemma mkCivilians_spec (l : list nat) (w : World) :
  let r := mapM mkCivilian l w in
  Actor.id <$> r.1 = (fun i => "civ-" +:+ pretty i) <$> l
  /\ Forall (fun c => Actor.type c = civilian) r.1
  /\ PRNG.seed (prng r.2) = PRNG.seed (prng w) + Z.of_nat (length l) * (2 * seed_step).
Proof.
  revert w. induction l as [|i l IH]; intros w; cbv zeta.
  - cbn. repeat split; [constructor|lia].
  - rewrite mapM_cons_run. cbn [fst snd fmap list_fmap length].
    destruct (IH (mkCivilian i w).2) as (Hids & Hciv & Hseed).
    destruct (mkCivilian_id_type_seed i w) as (Hid & Hty & Hs).
    rewrite Hids, Hid, Hseed, Hs.
    repeat split; [constructor; [exact Hty|exact Hciv]|lia].
Qed.

Lemma initialActors_spec (response : option (list Point)) (gps : GpsMode)
    (w : World) :
  let r := initialActors response gps w in
  let adv := mkAdversary (validatePath "Parking" "Meadow" response) gps in
  Actor.id <$> r.1
  = ["adv-1"; "civ-0"; "civ-1"; "civ-2"; "civ-3"; "civ-4"; "civ-5"; "civ-6";
     "civ-7"; "civ-8"; "civ-9"]
  /\ List.find is_adversary r.1 = Some adv
  /\ List.filter is_adversary r.1 = [adv]
  /\ PRNG.seed (prng r.2) = PRNG.seed (prng w) + 20 * seed_step
  /\ Actor.pathIndex adv = 0%nat
  /\ (1 <= length (Actor.path adv))%nat.
Proof.
  cbv zeta. unfold initialActors, mbind, M_bind, mkCivilians.
  destruct (mkCivilians_spec (seq 0 CIVILIAN_COUNT) w) as (Hids & Hciv & Hseed).
  destruct (mapM mkCivilian (seq 0 CIVILIAN_COUNT) w) as [civilians w'].
  cbn [fst snd] in *. unfold mret, M_ret. cbn [fst snd fmap list_fmap].
  rewrite Hids, Hseed.
  split; [reflexivity|]. split; [reflexivity|]. split.
  { cbn [List.filter is_adversary mkAdversary Actor.type]. f_equal.
    clear Hids Hseed.
    induction Hciv as [|c civilians Hc _ IH]; [reflexivity|].
    cbn [List.filter]. unfold is_adversary at 1. now rewrite Hc. }
  split; [cbn; lia|]. split; [reflexivity|].
  cbn [mkAdversary Actor.path].
  destruct (validatePath_nonempty "Parking" "Meadow" response) as [p Hp].
  destruct (validatePath "Parking" "Meadow" response); [discriminate|cbn; lia].
Qed.

(** X12.  The actors a run starts with are eleven: the adversary "adv-1" first,
    then the civilians "civ-0" to "civ-9".  The adversary is the only
    actor of its type, so it is the one the tick loop looks up.  Creating
    them takes twenty draws. *)
Theorem initialActors_shape (response : option (list Point)) (gps : GpsMode)
    (w : World) :
  let r := initialActors response gps w in
  let adv := mkAdversary (validatePath "Parking" "Meadow" response) gps in
  Actor.id <$> r.1
  = ["adv-1"; "civ-0"; "civ-1"; "civ-2"; "civ-3"; "civ-4"; "civ-5"; "civ-6";
     "civ-7"; "civ-8"; "civ-9"]
  /\ List.find is_adversary r.1 = Some adv
  /\ List.filter is_adversary r.1 = [adv]
  /\ PRNG.seed (prng r.2) = PRNG.seed (prng w) + 20 * seed_step
  /\ Actor.pathIndex adv = 0%nat
  /\ (1 <= length (Actor.path adv))%nat.
Proof. apply initialActors_spec. Qed.

(** ** The advance step *)

Lemma advance_frame (a : Actor.t) (w : World) :
  let r := advance a w in
  Actor.id r.1 = Actor.id a /\ Actor.type r.1 = Actor.type a
  /\ Actor.speed r.1 = Actor.speed a /\ Actor.gpsMode r.1 = Actor.gpsMode a
  /\ PRNG.seed (prng r.2)
     = PRNG.seed (prng w) + (if repathing a then seed_step else 0)
  /\ clock r.2 = clock w /\ reads r.2 = reads w.
Proof.
  cbv zeta. unfold advance, repathing, is_adversary.
  destruct a as [i ty p pa ix sp g].
  cbn [Actor.type Actor.id Actor.speed Actor.gpsMode Actor.pos Actor.path
       Actor.pathIndex].
  destruct (_ >=? _), ty; cbn [negb andb];
    unfold mbind, M_bind; rewrite ?getRandomPoiName_run; cbn; repeat split; lia.
Qed.

(** X13.  The advance step of a tick keeps the actors in their order with their
    identity, type, speed and GPS mode; it takes one draw for each civilian
    that stood at the end of its path and none otherwise, and it does not
    read the clock. *)
Theorem advance_keeps_identity (actors : list Actor.t) (w : World) :
  let r := mapM advance actors w in
  Actor.id <$> r.1 = Actor.id <$> actors
  /\ Actor.type <$> r.1 = Actor.type <$> actors
  /\ Actor.speed <$> r.1 = Actor.speed <$> actors
  /\ Actor.gpsMode <$> r.1 = Actor.gpsMode <$> actors
  /\ PRNG.seed (prng r.2)
     = PRNG.seed (prng w) + Z.of_nat (length (List.filter repathing actors)) * seed_step
  /\ clock r.2 = clock w /\ reads r.2 = reads w.
Proof.
  revert w. induction actors as [|a actors IH]; intros w; cbv zeta.
  - cbn. repeat split; lia.
  - rewrite mapM_cons_run. cbn [fst snd fmap list_fmap List.filter].
    destruct (advance_frame a w) as (Hid & Hty & Hsp & Hg & Hseed & Hclock & Hreads).
    destruct (IH (advance a w).2)
      as (Hids & Htys & Hsps & Hgs & Hseeds & Hclocks & Hreadss).
    rewrite Hid, Hty, Hsp, Hg, Hids, Htys, Hsps, Hgs, Hseeds, Hseed, Hclocks, Hreadss.
    repeat split; try assumption.
    destruct (repathing a); cbn [length]; lia.
Qed.

(** ** Runs that cannot be detected *)

Section Undetected.
Context `{MathLib}.

Implicit Types (sensors : list Sensor.t) (rules : list DetectionRule.t)
  (s : SimState) (w : World) (a : Actor.t).

Lemma pairs_in_range_no_sensors (actors : list Actor.t) :
  pairs_in_range actors [] = [].
Proof. induction actors as [|a actors IH]; [reflexivity|exact IH]. Qed.

Lemma runDetectionLogic_no_alerts (actors : list Actor.t) sensors
    (weather : Weather) rules (st : DetectionState) w (res : DetectionResult) :
  sensors = [] \/ Forall (fun r => recognized r = false) rules ->
  (runDetectionLogic actors sensors weather rules st w).1 = Some res ->
  newAlerts res = [].
Proof.
  intros Hblind. rewrite runDetectionLogic_unfold. cbv zeta.
  destruct (scanActors_spec actors sensors weather [] w)
    as (new & Hnew & _ & _ & Hlen & _).
  cbn [app] in Hnew. rewrite Hnew.
  destruct new as [|e new]; cbn [length Nat.eqb fst].
  - now intros [= <-].
  - destruct Hblind as [-> | Hrules].
    + rewrite pairs_in_range_no_sensors in Hlen. cbn in Hlen. lia.
    + unfold evaluateRules. rewrite foldl_rules_recognized.
      replace (List.filter recognized rules) with (@nil DetectionRule.t).
      * cbn. now intros [= <-].
      * symmetry. induction Hrules as [|r rules Hr _ IH]; [reflexivity|].
        cbn [List.filter]. now rewrite Hr.
Qed.

(** Where the advanced adversary stands when at most one waypoint was
    left. *)
Lemma advance_adversary_arrives a :
  (remaining a <= 1)%nat ->
  Z.of_nat (length (Actor.path (advance_adversary a))) - 1
  <= Z.of_nat (Actor.pathIndex (advance_adversary a)).
Proof.
  intros Hrem. unfold remaining in Hrem. unfold advance_adversary.
  destruct (_ >=? _) eqn:Hend.
  - rewrite Z.geb_leb in Hend. now apply Z.leb_le in Hend.
  - cbn. lia.
Qed.

Lemma tick_bypassed_on_arrival sensors rules s w a :
  List.find is_adversary (currentActors s) = Some a ->
  (remaining a <= 1)%nat ->
  tick sensors rules s w
  = (Resolved BYPASSED, (mapM advance (currentActors s) w).2).
Proof.
  intros Hfind Hrem. rewrite tick_unfold. cbv zeta.
  rewrite find_adversary_mapM_advance, Hfind. cbn [fmap option_fmap option_map].
  pose proof (advance_adversary_arrives a Hrem) as Harr.
  destruct (_ >=? _) eqn:Hend; [reflexivity|].
  rewrite Z.geb_leb in Hend. apply Z.leb_gt in Hend. lia.
Qed.

(** X14.  A run whose adversary has at most one waypoint left is BYPASSED by the
    next tick, whatever the sensors and the rules: the tick advances the
    actors and resolves before any detection is attempted.  So it goes for
    every run started on a generated path of at most two waypoints, the
    fallback path of a failed generation among them. *)
Theorem short_path_is_bypassed_unseen sensors rules :
  (forall s w a,
      List.find is_adversary (currentActors s) = Some a ->
      (remaining a <= 1)%nat ->
      tick sensors rules s w
      = (Resolved BYPASSED, (mapM advance (currentActors s) w).2))
  /\ (forall response gps w,
        (length (default [] response) <= 2)%nat ->
        let start := initialActors response gps w in
        (runSimulationPromise 1 start.1 sensors rules start.2).1 = Some BYPASSED).
Proof.
  split; [intros s w a Hfind Hrem; now apply (tick_bypassed_on_arrival _ _ s w a)|].
  intros response gps w Hshort. cbv zeta.
  unfold runSimulationPromise. rewrite ticks_unfold.
  destruct (initialActors_spec response gps w) as (_ & Hfind & _).
  rewrite (tick_bypassed_on_arrival sensors rules
             (mkSim (initialActors response gps w).1 ∅)
             (initialActors response gps w).2 _ Hfind); [reflexivity|].
  unfold remaining, mkAdversary. cbn [Actor.path Actor.pathIndex].
  destruct response as [[|p ps]|]; cbn [validatePath default from_option id] in *;
    [cbn [length]; lia| |cbn [length]; lia].
  rewrite !length_insert. lia.
Qed.

(** X15.  With no sensors, or with no rule of a type the engine knows, a run
    with an adversary is never DETECTED: it is BYPASSED, and exactly at the
    tick at which the adversary arrives at its last waypoint (the first
    tick when it is already there). *)
Theorem undetectable_run_is_bypassed_on_arrival sensors rules s w a (n : nat) :
  sensors = [] \/ Forall (fun r => recognized r = false) rules ->
  List.find is_adversary (currentActors s) = Some a ->
  (ticks n sensors rules s w).1
  = if (Nat.max 1 (remaining a) <=? n)%nat then Some BYPASSED else None.
Proof.
  intros Hblind. revert s w a.
  induction n as [|n IH]; intros s w a Hfind.
  - cbn [ticks]. destruct (Nat.max 1 (remaining a) <=? 0)%nat eqn:Hle; [|reflexivity].
    apply Nat.leb_le in Hle. lia.
  - rewrite ticks_unfold.
    destruct (le_lt_dec (remaining a) 1) as [Hshort|Hlong].
    + rewrite (tick_bypassed_on_arrival sensors rules s w a Hfind Hshort). cbn [fst].
      destruct (Nat.max 1 (remaining a) <=? S n)%nat eqn:Hle; [reflexivity|].
      apply Nat.leb_gt in Hle. lia.
    + pose proof (tick_outcome sensors rules s w a Hfind) as Hout. cbv zeta in Hout.
      assert (Hix : Actor.pathIndex (advance_adversary a) = S (Actor.pathIndex a)
                    /\ Actor.path (advance_adversary a) = Actor.path a).
      { apply advance_adversary_index. unfold remaining in Hlong.
        rewrite Z.geb_leb. apply Z.leb_gt. lia. }
      destruct Hix as [Hix Hpath].
      destruct (tick sensors rules s w).1 as [[|]|s'] eqn:Htick.
      * exfalso. destruct Hout as (_ & res & Hres & Hcrit).
        rewrite (runDetectionLogic_no_alerts _ _ _ _ _ _ _ Hblind Hres) in Hcrit.
        discriminate.
      * exfalso. rewrite Hix, Hpath in Hout. unfold remaining in Hlong. lia.
      * destruct Hout as (Hfind' & _).
        rewrite (IH s' _ _ Hfind').
        replace (remaining (advance_adversary a)) with (remaining a - 1)%nat
          by (unfold remaining; rewrite Hix, Hpath; lia).
        destruct (Nat.max 1 (remaining a - 1) <=? n)%nat eqn:H1,
                 (Nat.max 1 (remaining a) <=? S n)%nat eqn:H2; try reflexivity;
          [apply Nat.leb_le in H1; apply Nat.leb_gt in H2
          |apply Nat.leb_gt in H1; apply Nat.leb_le in H2]; lia.
Qed.

End Undetected.

(** ** The generated path and the patched rules *)

(** X16.  The validated path always ends at the end point.  It starts at the
    start point unless the generated path had exactly one waypoint, in
    which case it is the end point alone.  A missing or empty path becomes
    the direct path of two points; otherwise the length is kept and the
    waypoints strictly between the first and the last are left as
    generated. *)
Theorem validatePath_pins_the_ends (start end_ : string)
    (response : option (list Point)) :
  let generated := default [] response in
  let path := validatePath start end_ response in
  last path = Some (poi_pos end_)
  /\ (length generated <> 1%nat -> path !! 0%nat = Some (poi_pos start))
  /\ (length generated = 1%nat -> path = [poi_pos end_])
  /\ (generated = [] -> path = [poi_pos start; poi_pos end_])
  /\ (generated <> [] ->
      length path = length generated
      /\ forall i, (0 < i < length generated - 1)%nat -> path !! i = generated !! i).
Proof.
  assert (Hdirect : forall s e : Point,
             last [s; e] = Some e
             /\ (length (@nil Point) <> 1%nat -> [s; e] !! 0%nat = Some s)
             /\ (length (@nil Point) = 1%nat -> [s; e] = [e])
             /\ (@nil Point = [] -> [s; e] = [s; e])
             /\ (@nil Point <> [] ->
                 length [s; e] = length (@nil Point)
                 /\ forall i, (0 < i < length (@nil Point) - 1)%nat ->
                              [s; e] !! i = (@nil Point) !! i)).
  { intros s e. split; [reflexivity|]. split; [reflexivity|].
    split; [discriminate|]. split; [reflexivity|]. congruence. }
  cbv zeta. destruct response as [[|p ps]|]; cbn [default from_option id validatePath].
  - apply Hdirect.
  - replace (length (p :: ps) - 1)%nat with (length ps) by (cbn [length]; lia).
    split; [|split; [|split; [|split]]].
    + rewrite last_lookup, length_insert, length_insert. cbn [length Nat.pred].
      apply list_lookup_insert_eq. rewrite length_insert. cbn [length]. lia.
    + intros Hlen. destruct ps as [|q ps]; [cbn [length] in Hlen; lia|]. reflexivity.
    + intros Hlen. destruct ps as [|q ps]; [reflexivity|cbn [length] in Hlen; lia].
    + discriminate.
    + intros _. split; [now rewrite !length_insert|].
      intros i Hi. cbn [length] in Hi.
      rewrite list_lookup_insert_ne by lia.
      destruct i; [lia|reflexivity].
  - apply Hdirect.
Qed.

Lemma filter_filter_neg {A} (f : A -> bool) (l : list A) :
  List.filter f (List.filter (fun x => negb (f x)) l) = [].
Proof.
  induction l as [|x l IH]; [reflexivity|]. cbn.
  destruct (f x) eqn:Hx; cbn; [exact IH|]. now rewrite Hx.
Qed.

Lemma filter_filter_same {A} (f : A -> bool) (l : list A) :
  List.filter f (List.filter f l) = List.filter f l.
Proof.
  induction l as [|x l IH]; [reflexivity|]. cbn.
  destruct (f x) eqn:Hx; cbn; [rewrite Hx; now f_equal|exact IH].
Qed.

(** X17.  Applying a patch puts its rule last and leaves it the only rule of
    its id; the rules of other ids stay, in their order.  Applying the same
    patch again changes nothing, and ids that were distinct stay
    distinct. *)
Theorem applyPatch_installs_one_rule (rules : list DetectionRule.t)
    (patch : PatchSuggestion.t) :
  let new := PatchSuggestion.rule patch in
  let same_id r := bool_decide (DetectionRule.id r = DetectionRule.id new) in
  let patched := applyPatch rules patch in
  last patched = Some new
  /\ List.filter same_id patched = [new]
  /\ List.filter (fun r => negb (same_id r)) patched
     = List.filter (fun r => negb (same_id r)) rules
  /\ applyPatch patched patch = patched
  /\ (length patched <= S (length rules))%nat
  /\ (NoDup (DetectionRule.id <$> rules) -> NoDup (DetectionRule.id <$> patched)).
Proof.
  cbv zeta. unfold applyPatch.
  set (new := PatchSuggestion.rule patch).
  set (same_id := fun r => bool_decide (DetectionRule.id r = DetectionRule.id new)).
  change (fun r => negb (bool_decide (DetectionRule.id r = DetectionRule.id new)))
    with (fun r => negb (same_id r)).
  assert (Hnew : same_id new = true) by now apply bool_decide_eq_true.
  split; [apply last_snoc|].
  split.
  { rewrite List.filter_app, filter_filter_neg. cbn. now rewrite Hnew. }
  split.
  { rewrite List.filter_app, filter_filter_same. cbn. rewrite Hnew. cbn.
    apply app_nil_r. }
  split.
  { rewrite List.filter_app, filter_filter_same. cbn. rewrite Hnew. cbn.
    now rewrite app_nil_r. }
  split.
  { rewrite length_app. cbn.
    pose proof (List.filter_length_le (fun r => negb (same_id r)) rules). lia. }
  intros Hnodup. rewrite fmap_app. apply NoDup_app. split; [|split].
  - clear Hnew. induction rules as [|r rules IH]; [constructor|].
    cbn in Hnodup |- *. apply NoDup_cons in Hnodup as [Hr Hnodup].
    destruct (same_id r); cbn; [now apply IH|].
    apply NoDup_cons. split; [|now apply IH].
    intros Hin. apply Hr. apply list_elem_of_fmap in Hin as (x & -> & Hx).
    apply list_elem_of_In, List.filter_In in Hx as [Hx _].
    apply list_elem_of_fmap. exists x. split; [reflexivity|now apply list_elem_of_In].
  - intros i Hi Hi'. cbn in Hi'. apply list_elem_of_singleton in Hi'. subst i.
    apply list_elem_of_fmap in Hi as (x & Hid & Hx).
    apply list_elem_of_In, List.filter_In in Hx as [_ Hx].
    apply negb_true_iff, bool_decide_eq_false in Hx. congruence.
  - cbn. apply NoDup_singleton.
Qed.

(** ** The adversary's polylines *)

(** X18.  For an actor standing on its path, the traversed polyline ends and the
    planned polyline starts at the actor's position, and the waypoints
    before it followed by the planned polyline are the whole path. *)
Theorem adversary_polylines_meet (a : Actor.t) :
  well_placed a ->
  last (traversedPoints a) = Some (Actor.pos a)
  /\ head (plannedPoints a) = Some (Actor.pos a)
  /\ take (Actor.pathIndex a) (Actor.path a) ++ plannedPoints a = Actor.path a
  /\ (length (traversedPoints a) + length (plannedPoints a)
      = length (Actor.path a) + 1)%nat.
Proof.
  unfold well_placed, traversedPoints, plannedPoints. intros Hpos.
  pose proof (lookup_lt_Some _ _ _ Hpos) as Hlt.
  split; [|split; [|split]].
  - rewrite last_lookup, length_take, Nat.min_l by lia.
    rewrite Nat.add_1_r. cbn [Nat.pred]. rewrite lookup_take_lt by lia. exact Hpos.
  - rewrite head_lookup, lookup_drop, Nat.add_0_r. exact Hpos.
  - apply take_drop.
  - rewrite length_take, length_drop. lia.
Qed.

Lemma adversary_polylines_meet_witness :
  let a := Actor.mk "adv-1" adversary Ex.far [Ex.here; Ex.far; Ex.here] 1 20 gps_off in
  last (traversedPoints a) = Some Ex.far /\ head (plannedPoints a) = Some Ex.far.
Proof.
  intros a.
  destruct (adversary_polylines_meet a eq_refl) as (Hlast & Hhead & _).
  now split.
Defined.

(** ** A sensor of range zero *)

Lemma SFcompare_nan_r (x : spec_float) : SFcompare x S754_nan = None.
Proof. now destruct x. Qed.

Lemma SFmul_nan_r (x : spec_float) : SF64mul x S754_nan = S754_nan.
Proof. now destruct x. Qed.

Lemma SFsub_nan_r (x : spec_float) : SF64sub x S754_nan = S754_nan.
Proof. now destruct x. Qed.

Lemma float_ltb_nan (r p : float) : Prim2SF p = S754_nan -> (r <? p)%float = false.
Proof. intros Hp. rewrite ltb_spec, Hp. unfold SFltb. now rewrite SFcompare_nan_r. Qed.

Lemma float_mul_nan_l (p q : float) :
  Prim2SF p = S754_nan -> Prim2SF (p * q) = S754_nan.
Proof. intros Hp. now rewrite mul_spec, Hp. Qed.

Lemma float_mul_nan_r (p q : float) :
  Prim2SF q = S754_nan -> Prim2SF (p * q) = S754_nan.
Proof. intros Hq. rewrite mul_spec, Hq. apply SFmul_nan_r. Qed.

(** A double that is zero, and one caught between zero and a zero. *)
Lemma float_eqb_zero (r : float) :
  (r =? 0)%float = true -> exists s, Prim2SF r = S754_zero s.
Proof.
  rewrite FloatAxioms.eqb_spec. change (Prim2SF 0) with (S754_zero false). unfold SFeqb.
  destruct (Prim2SF r) as [s|s| |s m e]; cbn; eauto; try discriminate;
    destruct s; discriminate.
Qed.

Lemma float_between_zeros (d r : float) (sr : bool) :
  Prim2SF r = S754_zero sr ->
  (d <=? r)%float = true -> (0 <=? d)%float = true ->
  exists s, Prim2SF d = S754_zero s.
Proof.
  intros Hr. rewrite !leb_spec, Hr. change (Prim2SF 0) with (S754_zero false).
  unfold SFleb.
  destruct (Prim2SF d) as [s|s| |s m e]; cbn; eauto; try discriminate;
    destruct s; discriminate.
Qed.

Section ZeroRange.
Context `{MathLib}.

(** X19.  A sensor of range zero never detects.  An actor at a positive distance
    is out of range; for an actor at distance zero the falloff
    [1 - 0 / 0] is NaN, the probability is NaN whatever the base
    probability and the penalty, and no draw is below NaN.  The draw is
    taken all the same. *)
Theorem zero_range_sensor_never_detects (actor : Actor.t) (sensor : Sensor.t)
    (weather : Weather) (w : World) :
  (Sensor.range sensor =? 0)%float = true ->
  (0 <=? getDistance (Actor.pos actor) (Sensor.pos sensor))%float = true ->
  generateSensorEvent actor sensor weather w
  = (None, if in_range actor sensor
           then mkWorld (PRNG.random (prng w)).2 (clock w) (reads w)
           else w).
Proof.
  intros Hzero Hpos. rewrite generateSensorEvent_unfold. fold (in_range actor sensor).
  destruct (in_range actor sensor) eqn:Hin; [|reflexivity]. cbv zeta.
  destruct (float_eqb_zero _ Hzero) as [sr Hr].
  destruct (float_between_zeros _ _ sr Hr Hin Hpos) as [sd Hd].
  assert (Hfall : forall p : float,
             Prim2SF (p * (1 - getDistance (Actor.pos actor) (Sensor.pos sensor)
                               / Sensor.range sensor))%float = S754_nan).
  { intros p. apply float_mul_nan_r.
    rewrite sub_spec, div_spec, Hd, Hr. cbn [SF64div SFdiv]. apply SFsub_nan_r. }
  rewrite float_ltb_nan; [reflexivity|].
  unfold spec_probability.
  destruct (Actor.type actor); [apply float_mul_nan_l|]; apply Hfall.
Qed.

End ZeroRange.

Lemma zero_range_sensor_never_detects_witness :
  let sensor := Sensor.mk "S00" acoustic Ex.here 0 1 (fun _ => None) in
  in_range (H:=series_math) (Ex.walker Ex.here) sensor = true
  /\ (generateSensorEvent (H:=series_math) (Ex.walker Ex.here) sensor clear
                          (Ex.world 42 1000)).1 = None.
Proof.
  intros sensor. split; [vm_compute; reflexivity|].
  rewrite (zero_range_sensor_never_detects (H:=series_math)
             (Ex.walker Ex.here) sensor clear (Ex.world 42 1000));
    [reflexivity|vm_compute; reflexivity|vm_compute; reflexivity].
Defined.

(** ** Truncating a text *)

Lemma string_length_app (s1 s2 : string) :
  String.length (s1 +:+ s2) = (String.length s1 + String.length s2)%nat.
Proof. induction s1 as [|c s1 IH]; simpl; [reflexivity|now f_equal]. Qed.

Lemma string_length_substring_0 (n : nat) (s : string) :
  String.length (String.substring 0 n s) = Nat.min n (String.length s).
Proof.
  revert n. induction s as [|c s IH]; intros [|n]; simpl; try reflexivity.
  f_equal. apply IH.
Qed.

(** X20.  A text that fits is returned as it is.  A longer one is cut to its
    first [maxLength] characters and given three dots, so the result has
    [maxLength + 3] characters: up to three more than the limit, and
    longer than the text itself when the text exceeded the limit by one or
    two.  For a negative [maxLength] the cut drops that many characters
    from the end instead. *)
Theorem truncateText_lengths (text : string) (maxLength : Z) :
  let len := Z.of_nat (String.length text) in
  let out := Z.of_nat (String.length (truncateText text maxLength)) in
  (len <= maxLength -> truncateText text maxLength = text)
  /\ (0 <= maxLength < len ->
      truncateText text maxLength
      = String.substring 0 (Z.to_nat maxLength) text +:+ "..."
      /\ out = maxLength + 3)
  /\ (maxLength < 0 -> out = Z.max (len + maxLength) 0 + 3)
  /\ (0 <= maxLength -> out <= Z.max len (maxLength + 3)).
Proof.
  cbv zeta. unfold truncateText, slice_from_start.
  destruct (Z.leb_spec (Z.of_nat (String.length text)) maxLength) as [Hfit|Hlong].
  - repeat split; intros; lia.
  - destruct (Z.ltb_spec maxLength 0) as [Hneg|Hpos];
      rewrite string_length_app, string_length_substring_0; cbn [String.length].
    + repeat split; intros; lia.
    + replace (Z.min maxLength (Z.of_nat (String.length text))) with maxLength by lia.
      repeat split; intros; lia.
Qed.

Lemma truncateText_lengths_witness :
  truncateText "meadow" 5 = "meado..." /\ truncateText "meadow" 6 = "meadow"
  /\ truncateText "meadow" (-2) = "mead...".
Proof.
  destruct (truncateText_lengths "meadow" 5) as (_ & Hcut & _).
  destruct (truncateText_lengths "meadow" 6) as (Hfit & _).
  split; [apply Hcut; cbn; lia|]. split; [apply Hfit; cbn; lia|reflexivity].
Defined.

(** ** The further properties at concrete inputs *)

Lemma runDetectionLogic_alerts_are_critical_witness :
  let w := Ex.world 42 1000 in
  let e := SensorEvent.mk 1000 "S01" "adv-1" (0.8 * 1 * 0.8)%float Ex.here in
  (runDetectionLogic (H:=series_math) [Ex.intruder Ex.here] [Ex.camera_S01] clear
                     [Ex.hc_rule] ∅ w).1
  = Some (mkResult [hc_alert 1000 e] [e] ∅)
  /\ alert_of 1000 (hc_alert 1000 e).
Proof.
  intros w e.
  assert (Hrun : (runDetectionLogic (H:=series_math) [Ex.intruder Ex.here]
                    [Ex.camera_S01] clear [Ex.hc_rule] ∅ w).1
                 = Some (mkResult [hc_alert 1000 e] [e] ∅))
    by (vm_compute; reflexivity).
  split; [exact Hrun|].
  exact (Forall_inv (proj1 (runDetectionLogic_alerts_are_critical (H:=series_math)
                              _ _ _ _ _ _ _ Hrun))).
Defined.

Lemma evaluateRules_touches_only_its_keys_witness :
  let st : DetectionState := <[ "operator_note" := VNum 7 ]> ∅ in
  let run := evaluateRules (H:=series_math) 1000 (Some (Ex.intruder Ex.here))
               [Ex.sighting 1000 "adv-1" Ex.here]
               [Ex.persistent_rule; Ex.group_rule] st in
  is_Some run
  /\ default ∅ (snd <$> run) !! "operator_note" = Some (VNum 7)
  /\ is_Some (default ∅ (snd <$> run) !! "group_sighting_meadow-cooldown").
Proof.
  intros st run.
  assert (Hrun : run = Some (default [] (fst <$> run), default ∅ (snd <$> run)))
    by (vm_compute; reflexivity).
  split; [exact (ex_intro _ _ Hrun)|]. split.
  - rewrite (evaluateRules_touches_only_its_keys (H:=series_math)
               _ _ _ _ _ _ _ "operator_note" Hrun); [vm_compute; reflexivity|].
    intros rule Hin _. each_of Hin; (split; [|intros _]); decide_by_compute.
  - vm_compute. eexists. reflexivity.
Defined.

Lemma evaluateRules_never_raises_with_keys_apart_witness :
  let rules := [Ex.persistent_rule; Ex.group_rule; Ex.hc_rule; Ex.future_rule] in
  let st : DetectionState := <[ "group_sighting_meadow-cooldown" := VNum 500 ]> ∅ in
  let inherited_id :=
    DetectionRule.mk "constructor" "persistent_sighting" (Params.mk 0 10 3 0 0) in
  keys_apart rules /\ lists_under rules st
  /\ is_Some (evaluateRules (H:=series_math) 1000 (Some (Ex.intruder Ex.here))
                [Ex.sighting 1000 "adv-1" Ex.here] rules st)
  /\ lists_under rules ∅
  /\ evaluateRules (H:=series_math) 1000 (Some (Ex.intruder Ex.here))
                   [Ex.sighting 1000 "adv-1" Ex.here] [inherited_id] ∅ = None.
Proof.
  intros rules st inherited_id.
  assert (Hkeys : keys_apart rules).
  { intros r1 r2 H1 H2 _ _. unfold rules in H1, H2.
    each_of H1; each_of H2; decide_by_compute. }
  assert (Hlists : lists_under rules st).
  { intros r Hin _. unfold rules in Hin.
    each_of Hin; exists []; vm_compute; reflexivity. }
  split; [exact Hkeys|]. split; [exact Hlists|].
  destruct (evaluateRules_never_raises_with_keys_apart (H:=series_math)
              1000 (Some (Ex.intruder Ex.here)) [Ex.sighting 1000 "adv-1" Ex.here]
              rules st Hkeys) as [Hreturns Hempty].
  destruct (Hreturns Hlists) as (alerts & st' & Hrun & _).
  split; [exact (ex_intro _ _ Hrun)|]. split; [|vm_compute; reflexivity].
  apply Hempty. intros r Hin _. unfold rules in Hin.
  each_of Hin; vm_compute; reflexivity.
Defined.

Lemma stateful_rule_stores_a_pruned_list_witness :
  let old := Ex.sighting 1000 "adv-1" Ex.far in
  let new := Ex.sighting 20000 "adv-1" Ex.here in
  let key := "persistent_sighting_v1" in
  let st : DetectionState := <[ key := VEvents [old] ]> ∅ in
  stateful Ex.persistent_rule
  /\ apply_rule (H:=series_math) 20000 (Some (Ex.intruder Ex.here)) [new]
                Ex.persistent_rule ([], st)
     = Some ([], <[ key := VEvents [new] ]> ∅)
  /\ exists l, (<[ key := VEvents [new] ]> ∅ : DetectionState) !! key = Some (VEvents l)
               /\ (l = [] \/ Z.of_nat (length l) < 3).
Proof.
  intros old new key st.
  assert (Hst : stateful Ex.persistent_rule) by (left; reflexivity).
  assert (Hrun : apply_rule (H:=series_math) 20000 (Some (Ex.intruder Ex.here)) [new]
                            Ex.persistent_rule ([], st)
                 = Some ([], <[ key := VEvents [new] ]> ∅))
    by (vm_compute; reflexivity).
  split; [exact Hst|]. split; [exact Hrun|].
  destruct (stateful_rule_stores_a_pruned_list (H:=series_math)
              _ _ _ _ _ _ _ _ Hst Hrun) as (l & Hl & _ & Hlen).
  exists l. split; [exact Hl|]. exact (Hlen eq_refl).
Defined.

Lemma undetectable_run_is_bypassed_on_arrival_witness :
  let s := mkSim [Ex.walker Ex.far; Ex.intruder Ex.here] ∅ in
  let w := Ex.world 42 1000 in
  remaining (Ex.intruder Ex.here) = 3%nat
  /\ (ticks (H:=series_math) 2 [Ex.camera_S01] [Ex.future_rule] s w).1 = None
  /\ (ticks (H:=series_math) 3 [Ex.camera_S01] [Ex.future_rule] s w).1 = Some BYPASSED.
Proof.
  intros s w.
  assert (Hrules : ([Ex.camera_S01] = [] :> list Sensor.t)
                   \/ Forall (fun r => recognized r = false) [Ex.future_rule]).
  { right. constructor; [vm_compute; reflexivity|constructor]. }
  split; [reflexivity|]. split.
  - exact (undetectable_run_is_bypassed_on_arrival (H:=series_math)
             [Ex.camera_S01] [Ex.future_rule] s w (Ex.intruder Ex.here) 2
             Hrules eq_refl).
  - exact (undetectable_run_is_bypassed_on_arrival (H:=series_math)
             [Ex.camera_S01] [Ex.future_rule] s w (Ex.intruder Ex.here) 3
             Hrules eq_refl).
Defined.

(** ** The rules after a reset and at a start *)

(** X21.  [handleStartScenario] calls [resetFullExperiment] and then filters the
    scenario's rules again.  The second filter is the stricter one: the
    rules of a start are the rules of a reset without the group_sighting
    rules, and filtering the reset rules gives the same list as filtering
    the scenario's. *)
Theorem start_rules_are_reset_rules_without_groups (rules : list DetectionRule.t) :
  startRules (resetRules rules) = startRules rules
  /\ (forall r, r ∈ startRules rules
                <-> r ∈ resetRules rules /\ DetectionRule.type r <> "group_sighting")
  /\ (length (startRules rules) <= length (resetRules rules) <= length rules)%nat.
Proof.
  assert (Hcomp : startRules (resetRules rules) = startRules rules).
  { unfold startRules, resetRules. induction rules as [|r rules IH]; [reflexivity|].
    cbn [List.filter].
    destruct (bool_decide (DetectionRule.type r = "persistent_sighting")) eqn:Hp;
      cbn [negb andb List.filter]; rewrite ?Hp; cbn [negb andb]; [exact IH|].
    destruct (negb (bool_decide (DetectionRule.type r = "group_sighting")));
      [now f_equal|exact IH]. }
  split; [exact Hcomp|]. split.
  - intros r. unfold startRules, resetRules.
    rewrite !list_elem_of_In, !filter_In, andb_true_iff, !negb_true_iff,
      !bool_decide_eq_false. tauto.
  - split; [|apply filter_length_le].
    rewrite <- Hcomp. apply filter_length_le.
Qed.
